(** * wangle channel pipeline: assembly, finalize, dispatch and teardown

    A shallow embedding of [wangle/channel/Pipeline.h] and
    [wangle/channel/Pipeline-inl.h].

    The C++ objects live on a heap; the embedding keeps that heap explicit.
    A context pointer ([PipelineContext*], or the raw pointer held by a
    [std::shared_ptr<PipelineContext>]) is an address, the store maps
    addresses to context objects, and the pipeline's three vectors hold
    addresses, so that two vectors naming the same context really alias.
    Calls that leave the pipeline (into a context, the manager or glog) are
    recorded, in program order, in a trace. *)

From stdpp Require Import base option list strings.

Open Scope string_scope.
Open Scope list_scope.

(** ** Types declared outside [Pipeline.h] *)

(** An address.  [None : option Ptr] is [nullptr]. *)
Abbreviation Ptr := nat (only parsing).

(** A C++ message type, as far as the pipeline can observe one: it is either
    the sentinel [struct Nothing {}] of Pipeline.h:55 or some other type. *)
Inductive Ty : Type :=
  | Nothing
  | Named (name : string).

(** [enum class HandlerDir] of Handler.h. *)
Inductive HandlerDir : Type := IN | OUT | BOTH.

(** What the pipeline sees of a handler class [H]: its identity, its static
    [H::dir] and the four associated types [H::rin], [H::rout], [H::win] and
    [H::wout]. *)
Record HandlerType : Type := mkHandlerType {
  hname : string;
  dir : HandlerDir;
  rin : Ty;
  rout : Ty;
  win : Ty;
  wout : Ty
}.

(** Modelled from the spec: which link interfaces a context implements
    (HandlerContext.h is not among the sources).  The context of a handler
    is an inbound link of the handler's type [Rin] and an outbound link of
    its type [Wout]. *)
Definition inboundLinkType (H : HandlerType) : Ty := rin H.
Definition outboundLinkType (H : HandlerType) : Ty := wout H.

(** A [std::shared_ptr<H>]: the static type [H] and the address held. *)
Record Handler : Type := mkHandler {
  htype : HandlerType;
  haddr : Ptr
}.

#[global] Instance Ty_eq_dec : EqDecision Ty.
Proof. solve_decision. Defined.
#[global] Instance HandlerDir_eq_dec : EqDecision HandlerDir.
Proof. solve_decision. Defined.
#[global] Instance HandlerType_eq_dec : EqDecision HandlerType.
Proof. solve_decision. Defined.
#[global] Instance Handler_eq_dec : EqDecision Handler.
Proof. solve_decision. Defined.

(** Modelled from the spec: the context classes of HandlerContext.h, which
    is not among the sources.  A context is the per-handler wrapper holding
    a shared reference to the handler, a back-pointer to the pipeline, a
    next-in neighbour (null at the tail) and a next-out neighbour (null at
    the head).  [ContextType<H, Pipeline>::type] is the context variant
    matching [H::dir], so [Context::dir] is [H::dir]; a context of direction
    IN or BOTH implements the inbound link, one of direction OUT or BOTH the
    outbound link. *)
Record Context : Type := mkContext {
  pipeline_ : Ptr;
  handlerType : HandlerType;
  handler_ : Ptr;
  nextIn_ : option Ptr;
  nextOut_ : option Ptr
}.

#[global] Instance Context_eq_dec : EqDecision Context.
Proof. solve_decision. Defined.

(** [Context(pipeline, handler)]: both neighbours start out null. *)
Definition newContext (pipeline : Ptr) (h : Handler) : Context :=
  mkContext pipeline (htype h) (haddr h) None None.

(** Modelled from the spec: [setNextIn] and [setNextOut] of
    HandlerContext.h, the setters of the two neighbour slots, called
    exclusively by the pipeline during finalize. *)
Definition ctx_setNextIn (n : option Ptr) (c : Context) : Context :=
  mkContext (pipeline_ c) (handlerType c) (handler_ c) n (nextOut_ c).

Definition ctx_setNextOut (n : option Ptr) (c : Context) : Context :=
  mkContext (pipeline_ c) (handlerType c) (handler_ c) (nextIn_ c) n.

Definition inboundDir (d : HandlerDir) : bool :=
  match d with BOTH | IN => true | OUT => false end.

Definition outboundDir (d : HandlerDir) : bool :=
  match d with BOTH | OUT => true | IN => false end.

(** ** The heap of contexts

    The store is a list and an address is an index into it; allocation
    ([std::make_shared<Context>]) appends, so the address it returns is
    fresh.  Nothing in these two files frees a context while its pipeline
    is alive ([ctxs_] owns them). *)
Abbreviation Heap := (list Context) (only parsing).

Definition alloc (c : Context) (h : Heap) : Ptr * Heap := (length h, h ++ [c]).

(** [p->setNextIn(n)] and [p->setNextOut(n)] on the heap. *)
Definition setNextIn (p : Ptr) (n : option Ptr) (h : Heap) : Heap :=
  alter (ctx_setNextIn n) p h.

Definition setNextOut (p : Ptr) (n : option Ptr) (h : Heap) : Heap :=
  alter (ctx_setNextOut n) p h.

(** [Context::dir] of the object at [p], tested as addHelper does. *)
Definition isInbound (h : Heap) (p : Ptr) : bool :=
  match h !! p with
  | Some c => inboundDir (dir (handlerType c))
  | None => false
  end.

Definition isOutbound (h : Heap) (p : Ptr) : bool :=
  match h !! p with
  | Some c => outboundDir (dir (handlerType c))
  | None => false
  end.

(** [dynamic_cast<InboundLink<R>*>(p)]: the cross-cast yields [p] when the
    object at [p] is an inbound link of type [R], and null otherwise. *)
Definition dynamic_cast_InboundLink (R : Ty) (h : Heap) (p : Ptr) : option Ptr :=
  match h !! p with
  | Some c =>
      if inboundDir (dir (handlerType c))
         && bool_decide (inboundLinkType (handlerType c) = R)
      then Some p else None
  | None => None
  end.

(** [dynamic_cast<OutboundLink<W>*>(p)]. *)
Definition dynamic_cast_OutboundLink (W : Ty) (h : Heap) (p : Ptr) : option Ptr :=
  match h !! p with
  | Some c =>
      if outboundDir (dir (handlerType c))
         && bool_decide (outboundLinkType (handlerType c) = W)
      then Some p else None
  | None => None
  end.

(** [dynamic_cast<ContextType<H, Pipeline<R, W>>::type*>(p)]: the context
    classes are not derived from one another, so the cast succeeds exactly
    on a context built for the handler class [H]. *)
Definition dynamic_cast_Context (H : HandlerType) (h : Heap) (p : Ptr) : option Context :=
  match h !! p with
  | Some c => if bool_decide (handlerType c = H) then Some c else None
  | None => None
  end.

(** ** Calls that leave the pipeline

    A message and an exception are opaque to the pipeline, which only
    forwards them; a number stands for each. *)

Inductive Event : Type :=
  | attachPipeline (ctx : Ptr)
  | detachPipeline (ctx : Ptr)
  | link_read (ctx : Ptr) (msg : nat)
  | link_readEOF (ctx : Ptr)
  | link_readException (ctx : Ptr) (e : nat)
  | link_transportActive (ctx : Ptr)
  | link_transportInactive (ctx : Ptr)
  | link_write (ctx : Ptr) (msg : nat)
  | link_close (ctx : Ptr)
  | manager_deletePipeline (manager : Ptr) (pipeline : Ptr)
  | log_warning (text : string).

#[global] Instance Event_eq_dec : EqDecision Event.
Proof. solve_decision. Defined.

(** ** [class Pipeline], with the members of [PipelineBase] *)

Record Pipeline : Type := mkPipeline {
  manager_ : option Ptr;
  transport_ : option Ptr;
  writeFlags_ : N;
  readBufferSettings_ : Z * Z;
  isStatic_ : bool;
  owner_ : option Ptr;
  ctxs_ : list Ptr;
  inCtxs_ : list Ptr;
  outCtxs_ : list Ptr;
  front_ : option Ptr;
  back_ : option Ptr
}.

(** The machine state a member function runs in. *)
Record State : Type := mkState {
  self : Pipeline;
  heap : list Context;
  trace : list Event
}.

#[global] Instance Pipeline_eq_dec : EqDecision Pipeline.
Proof. solve_decision. Defined.
#[global] Instance State_eq_dec : EqDecision State.
Proof. solve_decision. Defined.

Definition with_self (f : Pipeline -> Pipeline) (s : State) : State :=
  mkState (f (self s)) (heap s) (trace s).

Definition with_heap (f : list Context -> list Context) (s : State) : State :=
  mkState (self s) (f (heap s)) (trace s).

Definition emit (es : list Event) (s : State) : State :=
  mkState (self s) (heap s) (trace s ++ es).

Definition set_manager (m : option Ptr) (p : Pipeline) : Pipeline :=
  mkPipeline m (transport_ p) (writeFlags_ p) (readBufferSettings_ p)
    (isStatic_ p) (owner_ p) (ctxs_ p) (inCtxs_ p) (outCtxs_ p)
    (front_ p) (back_ p).

Definition set_transport (t : option Ptr) (p : Pipeline) : Pipeline :=
  mkPipeline (manager_ p) t (writeFlags_ p) (readBufferSettings_ p)
    (isStatic_ p) (owner_ p) (ctxs_ p) (inCtxs_ p) (outCtxs_ p)
    (front_ p) (back_ p).

Definition set_writeFlags (f : N) (p : Pipeline) : Pipeline :=
  mkPipeline (manager_ p) (transport_ p) f (readBufferSettings_ p)
    (isStatic_ p) (owner_ p) (ctxs_ p) (inCtxs_ p) (outCtxs_ p)
    (front_ p) (back_ p).

Definition set_readBufferSettings (b : Z * Z) (p : Pipeline) : Pipeline :=
  mkPipeline (manager_ p) (transport_ p) (writeFlags_ p) b
    (isStatic_ p) (owner_ p) (ctxs_ p) (inCtxs_ p) (outCtxs_ p)
    (front_ p) (back_ p).

Definition set_owner (o : option Ptr) (p : Pipeline) : Pipeline :=
  mkPipeline (manager_ p) (transport_ p) (writeFlags_ p) (readBufferSettings_ p)
    (isStatic_ p) o (ctxs_ p) (inCtxs_ p) (outCtxs_ p)
    (front_ p) (back_ p).

Definition set_ctxs (l : list Ptr) (p : Pipeline) : Pipeline :=
  mkPipeline (manager_ p) (transport_ p) (writeFlags_ p) (readBufferSettings_ p)
    (isStatic_ p) (owner_ p) l (inCtxs_ p) (outCtxs_ p)
    (front_ p) (back_ p).

Definition set_inCtxs (l : list Ptr) (p : Pipeline) : Pipeline :=
  mkPipeline (manager_ p) (transport_ p) (writeFlags_ p) (readBufferSettings_ p)
    (isStatic_ p) (owner_ p) (ctxs_ p) l (outCtxs_ p)
    (front_ p) (back_ p).

Definition set_outCtxs (l : list Ptr) (p : Pipeline) : Pipeline :=
  mkPipeline (manager_ p) (transport_ p) (writeFlags_ p) (readBufferSettings_ p)
    (isStatic_ p) (owner_ p) (ctxs_ p) (inCtxs_ p) l
    (front_ p) (back_ p).

Definition set_front (f : option Ptr) (p : Pipeline) : Pipeline :=
  mkPipeline (manager_ p) (transport_ p) (writeFlags_ p) (readBufferSettings_ p)
    (isStatic_ p) (owner_ p) (ctxs_ p) (inCtxs_ p) (outCtxs_ p)
    f (back_ p).

Definition set_back (b : option Ptr) (p : Pipeline) : Pipeline :=
  mkPipeline (manager_ p) (transport_ p) (writeFlags_ p) (readBufferSettings_ p)
    (isStatic_ p) (owner_ p) (ctxs_ p) (inCtxs_ p) (outCtxs_ p)
    (front_ p) b.

(** [std::vector::insert(front ? v.begin() : v.end(), x)]. *)
Definition vec_insert (front : bool) (x : Ptr) (v : list Ptr) : list Ptr :=
  if front then x :: v else v ++ [x].

(** [WriteFlags::NONE] of folly. *)
Definition WriteFlags_NONE : N := 0%N.

(** The member initialisers of Pipeline.h:51-52 and 149-158 with the
    constructor's [isStatic_]. *)
Definition initial (isStatic : bool) : Pipeline :=
  mkPipeline None None WriteFlags_NONE (2048%Z, 2048%Z) isStatic None [] [] [] None None.

(** What a member function can do besides returning. *)
Inductive Exn : Type :=
  | invalid_argument (what : string).

Inductive Outcome (A : Type) : Type :=
  | Returns (a : A) (s : State)
  | Throws (e : Exn) (s : State)
  | CheckFailed (s : State)
  | Undefined.

Arguments Returns {A} a s.
Arguments Throws {A} e s.
Arguments CheckFailed {A} s.
Arguments Undefined {A}.

(** [std::is_same<T, U>::value]. *)
Definition is_same (T U : Ty) : bool := bool_decide (T = U).

(** A member function under [std::enable_if<!std::is_same<T, Nothing>::value>]
    exists only for a direction that is not [Nothing]; calling it takes the
    evidence the compiler would ask for. *)
Definition enabled (T : Ty) : Prop := is_same T Nothing = false.

(** A range-based [for] over a vector, and an indexed [for] over the
    indices it visits, in visiting order. *)
Definition for_each {A S : Type} (l : list A) (body : A -> S -> S) (s : S) : S :=
  foldl (fun acc x => body x acc) s l.

(** [v[i]->setNextIn(v[j])]; both indices are in range wherever finalize
    evaluates it. *)
Definition linkIn (v : list Ptr) (i j : nat) (h : Heap) : Heap :=
  match v !! i, v !! j with
  | Some c, Some n => setNextIn c (Some n) h
  | _, _ => h
  end.

Definition linkOut (v : list Ptr) (i j : nat) (h : Heap) : Heap :=
  match v !! i, v !! j with
  | Some c, Some n => setNextOut c (Some n) h
  | _, _ => h
  end.

(** [setOwner]'s search: the first context of [ctxs_] built for [H] whose
    handler is [handler]. *)
Fixpoint findOwner (H : HandlerType) (handler : Ptr) (h : Heap) (l : list Ptr)
  : option Ptr :=
  match l with
  | [] => None
  | ctx :: rest =>
      match dynamic_cast_Context H h ctx with
      | Some ctxImpl =>
          if bool_decide (handler_ ctxImpl = handler) then Some ctx
          else findOwner H handler h rest
      | None => findOwner H handler h rest
      end
  end.

Section Pipeline.

(** The template parameters of [Pipeline<R, W>] and the address of the
    pipeline object ([this]). *)
Variables R W : Ty.
Variable this : Ptr.

(** [Pipeline()] and [Pipeline(bool isStatic)]; the latter CHECKs its
    argument (Pipeline-inl.h:26-28). *)
Definition new : State := mkState (initial false) [] [].

Definition new_static (isStatic : bool) : Outcome unit :=
  if isStatic then Returns tt (mkState (initial isStatic) [] [])
  else CheckFailed (mkState (initial isStatic) [] []).

(** *** PipelineBase (Pipeline.h:32-48) *)

Definition setPipelineManager (manager : option Ptr) (s : State) : State :=
  with_self (set_manager manager) s.

Definition deletePipeline (s : State) : State :=
  match manager_ (self s) with
  | Some m => emit [manager_deletePipeline m this] s
  | None => s
  end.

Definition setTransport (transport : option Ptr) (s : State) : State :=
  with_self (set_transport transport) s.

Definition getTransport (s : State) : option Ptr := transport_ (self s).

(** *** Settings (Pipeline-inl.h:37-57) *)

Definition setWriteFlags (flags : N) (s : State) : State :=
  with_self (set_writeFlags flags) s.

Definition getWriteFlags (s : State) : N := writeFlags_ (self s).

Definition setReadBufferSettings (minAvailable allocationSize : Z) (s : State)
  : State :=
  with_self (set_readBufferSettings (minAvailable, allocationSize)) s.

Definition getReadBufferSettings (s : State) : Z * Z :=
  readBufferSettings_ (self s).

(** *** Inbound and outbound entry points (Pipeline-inl.h:59-126)

    What the link does with the call is the handler's business; the
    embedding records the call. *)

Definition read (_ : enabled R) (msg : nat) (s : State) : Outcome unit :=
  match front_ (self s) with
  | None => Throws (invalid_argument "read(): no inbound handler in Pipeline") s
  | Some f => Returns tt (emit [link_read f msg] s)
  end.

Definition readEOF (_ : enabled R) (s : State) : Outcome unit :=
  match front_ (self s) with
  | None => Throws (invalid_argument "readEOF(): no inbound handler in Pipeline") s
  | Some f => Returns tt (emit [link_readEOF f] s)
  end.

Definition transportActive (_ : enabled R) (s : State) : Outcome unit :=
  match front_ (self s) with
  | Some f => Returns tt (emit [link_transportActive f] s)
  | None => Returns tt s
  end.

Definition transportInactive (_ : enabled R) (s : State) : Outcome unit :=
  match front_ (self s) with
  | Some f => Returns tt (emit [link_transportInactive f] s)
  | None => Returns tt s
  end.

Definition readException (_ : enabled R) (e : nat) (s : State) : Outcome unit :=
  match front_ (self s) with
  | None =>
      Throws (invalid_argument "readException(): no inbound handler in Pipeline") s
  | Some f => Returns tt (emit [link_readException f e] s)
  end.

Definition write (_ : enabled W) (msg : nat) (s : State) : Outcome unit :=
  match back_ (self s) with
  | None => Throws (invalid_argument "write(): no outbound handler in Pipeline") s
  | Some b => Returns tt (emit [link_write b msg] s)
  end.

Definition close (_ : enabled W) (s : State) : Outcome unit :=
  match back_ (self s) with
  | None => Throws (invalid_argument "close(): no outbound handler in Pipeline") s
  | Some b => Returns tt (emit [link_close b] s)
  end.

(** *** Assembly (Pipeline-inl.h:128-164 and 251-264) *)

Definition addHelper (ctx : Ptr) (front : bool) (s : State) : State :=
  let s1 := with_self (fun p => set_ctxs (vec_insert front ctx (ctxs_ p)) p) s in
  let s2 :=
    if isInbound (heap s1) ctx
    then with_self (fun p => set_inCtxs (vec_insert front ctx (inCtxs_ p)) p) s1
    else s1 in
  if isOutbound (heap s2) ctx
  then with_self (fun p => set_outCtxs (vec_insert front ctx (outCtxs_ p)) p) s2
  else s2.

(** [std::make_shared<Context>(this, std::move(handler))]. *)
Definition make_shared_Context (handler : Handler) (s : State) : Ptr * State :=
  let (ctx, h) := alloc (newContext this handler) (heap s) in
  (ctx, with_heap (fun _ => h) s).

(** The [std::shared_ptr<H>] overloads; the [H&&] and [H*] overloads build
    the shared pointer and delegate to them. *)
Definition addBack (handler : Handler) (s : State) : State :=
  let (ctx, s1) := make_shared_Context handler s in
  addHelper ctx false s1.

Definition addFront (handler : Handler) (s : State) : State :=
  let (ctx, s1) := make_shared_Context handler s in
  addHelper ctx true s1.

Definition addContextFront (ctx : Ptr) (s : State) : State :=
  addHelper ctx true s.

(** *** getHandler (Pipeline-inl.h:166-173)

    [ctxs_[i]] is unchecked; a failed [CHECK] aborts the process. *)
Definition getHandler (H : HandlerType) (i : Z) (s : State) : Outcome Ptr :=
  match (if bool_decide (0 <= i)%Z then ctxs_ (self s) !! Z.to_nat i else None) with
  | None => Undefined
  | Some p =>
      match dynamic_cast_Context H (heap s) p with
      | Some ctx => Returns (handler_ ctx) s
      | None => CheckFailed s
      end
  end.

(** *** finalize (Pipeline-inl.h:177-220) *)

Definition logWarningIfNotNothing (T : Ty) (warning : string) (s : State) : State :=
  match T with
  | Nothing => s
  | Named _ => emit [log_warning warning] s
  end.

Definition finalize_inbound (s : State) : State :=
  let inCtxs := inCtxs_ (self s) in
  match inCtxs with
  | [] => s
  | c0 :: _ =>
      let s1 := with_self (set_front (dynamic_cast_InboundLink R (heap s) c0)) s in
      with_heap
        (for_each (seq 0 (length inCtxs - 1)) (fun i => linkIn inCtxs i (i + 1)))
        s1
  end.

Definition finalize_outbound (s : State) : State :=
  let outCtxs := outCtxs_ (self s) in
  match last outCtxs with
  | None => s
  | Some cn =>
      let s1 := with_self (set_back (dynamic_cast_OutboundLink W (heap s) cn)) s in
      with_heap
        (for_each (reverse (seq 1 (length outCtxs - 1)))
                  (fun i => linkOut outCtxs i (i - 1)))
        s1
  end.

Definition finalize_warn (s : State) : State :=
  let s1 :=
    match front_ (self s) with
    | Some _ => s
    | None =>
        logWarningIfNotNothing R
          "No inbound handler in Pipeline, inbound operations will throw std::invalid_argument" s
    end in
  match back_ (self s1) with
  | Some _ => s1
  | None =>
      logWarningIfNotNothing W
        "No outbound handler in Pipeline, outbound operations will throw std::invalid_argument" s1
  end.

Definition finalize_attach (s : State) : State :=
  for_each (reverse (ctxs_ (self s))) (fun ctx => emit [attachPipeline ctx]) s.

Definition finalize (s : State) : State :=
  finalize_attach (finalize_warn (finalize_outbound (finalize_inbound s))).

(** *** Ownership and teardown (Pipeline-inl.h:30-35 and 222-249) *)

Definition setOwner (handler : Handler) (s : State) : bool * State :=
  match findOwner (htype handler) (haddr handler) (heap s) (ctxs_ (self s)) with
  | Some ctx => (true, with_self (set_owner (Some ctx)) s)
  | None => (false, s)
  end.

Definition detachHandlers (s : State) : State :=
  for_each (ctxs_ (self s))
    (fun ctx acc =>
       if bool_decide (Some ctx <> owner_ (self acc))
       then emit [detachPipeline ctx] acc
       else acc)
    s.

(** [~Pipeline()]. *)
Definition destroy (s : State) : State :=
  if negb (isStatic_ (self s)) then detachHandlers s else s.

(** *** Histories

    The public operations that act on the pipeline object or its contexts;
    a reachable state is what some sequence of them leaves of a pipeline
    built by [Pipeline()].  The dispatch functions above only call into a
    link, and what a handler does when called is not part of these files. *)
Inductive Op : Type :=
  | OpAddFront (handler : Handler)
  | OpAddBack (handler : Handler)
  | OpFinalize
  | OpSetOwner (handler : Handler)
  | OpSetPipelineManager (manager : option Ptr)
  | OpDeletePipeline
  | OpSetTransport (transport : option Ptr)
  | OpSetWriteFlags (flags : N)
  | OpSetReadBufferSettings (minAvailable allocationSize : Z).

Definition exec (o : Op) (s : State) : State :=
  match o with
  | OpAddFront h => addFront h s
  | OpAddBack h => addBack h s
  | OpFinalize => finalize s
  | OpSetOwner h => snd (setOwner h s)
  | OpSetPipelineManager m => setPipelineManager m s
  | OpDeletePipeline => deletePipeline s
  | OpSetTransport t => setTransport t s
  | OpSetWriteFlags f => setWriteFlags f s
  | OpSetReadBufferSettings a b => setReadBufferSettings a b s
  end.

Definition run (ops : list Op) (s : State) : State :=
  for_each ops exec s.

End Pipeline.

(** ** Scenarios *)

Module Scenario.

Definition bytes : Ty := Named "IOBufQueue&".
Definition bonk : Ty := Named "Bonk".

Definition Ai : HandlerType := mkHandlerType "Ai" IN bytes bytes Nothing Nothing.
Definition Bb : HandlerType := mkHandlerType "Bb" BOTH bytes bytes bonk bonk.
Definition Co : HandlerType := mkHandlerType "Co" OUT Nothing Nothing bonk bonk.

(** S5: the chain [Ai, Bb, Co] of a [Pipeline<IOBufQueue&, Bonk>] at
    address 1000, finalized. *)
Definition s5 : State :=
  finalize bytes bonk
    (addBack 1000 (mkHandler Co 103)
       (addBack 1000 (mkHandler Bb 102)
          (addBack 1000 (mkHandler Ai 101) new))).

(** A single handler of direction BOTH. *)
Definition single : State :=
  finalize bytes bonk (addFront 1000 (mkHandler Bb 102) new).

(** S3: [Bb]'s handler owns the pipeline of S5. *)
Definition s3 : bool * State := setOwner (mkHandler Bb 102) s5.

End Scenario.

(** A chain whose first inbound handler does not take the pipeline's
    inbound type: a [Pipeline<int, Nothing>] at address 1000 holding one
    inbound handler over [std::string]. *)
Module Mismatch.

Definition int : Ty := Named "int".
Definition str : Ty := Named "std::string".

Definition StringHandler : HandlerType :=
  mkHandlerType "StringHandler" IN str str Nothing Nothing.

Definition s : State :=
  finalize int Nothing (addBack 1000 (mkHandler StringHandler 101) new).

End Mismatch.

(** ** The RPC client's pipeline factory (example/rpc/RpcClient.cpp) *)

Module RpcClient.

(** [typedef Pipeline<IOBufQueue&, Bonk> SerializePipeline]. *)
Definition R : Ty := Named "IOBufQueue&".
Definition W : Ty := Named "Bonk".

(** [RpcPipelineFactory::newPipeline]: the five handlers, each moved into a
    shared pointer of its own by the [H&&] overload of [addBack], and the
    finalize.  Their classes are declared in headers outside these sources,
    so the handlers are arguments: [socket] is the [AsyncSocketHandler],
    [eventBase] the [EventBaseHandler], [decoder] the
    [LengthFieldBasedFrameDecoder], [prepender] the [LengthFieldPrepender]
    and [serializer] the [SerializeHandler]. *)
Definition newPipeline (this : Ptr)
    (socket eventBase decoder prepender serializer : Handler) : State :=
  finalize R W
    (addBack this serializer
       (addBack this prepender
          (addBack this decoder
             (addBack this eventBase
                (addBack this socket new))))).

End RpcClient.

(** ** Notions the statements use *)

(** The context at [ctx] was built for [handler]'s class and holds
    [handler]: the test of [setOwner]'s loop body. *)
Definition holds (handler : Handler) (h : Heap) (ctx : Ptr) : bool :=
  match dynamic_cast_Context (htype handler) h ctx with
  | Some ctxImpl => bool_decide (handler_ ctxImpl = haddr handler)
  | None => false
  end.

(** How many times [detachPipeline] is called on [ctx] in a trace. *)
Definition detach_count (ctx : Ptr) (t : list Event) : nat :=
  length (filter (fun e => e = detachPipeline ctx) t).

(** The operations that write a setting, the transport or the manager. *)
Definition is_setter (o : Op) : bool :=
  match o with
  | OpSetPipelineManager _ | OpSetTransport _
  | OpSetWriteFlags _ | OpSetReadBufferSettings _ _ => true
  | _ => false
  end.

(** The two warnings of finalize, and the ones a finalize that ends with
    entry pointers [front] and [back] logs. *)
Definition noInboundWarning : Event :=
  log_warning
    "No inbound handler in Pipeline, inbound operations will throw std::invalid_argument".

Definition noOutboundWarning : Event :=
  log_warning
    "No outbound handler in Pipeline, outbound operations will throw std::invalid_argument".

Definition warnings (R W : Ty) (front back : option Ptr) : list Event :=
  (if bool_decide (front = None) && negb (is_same R Nothing)
   then [noInboundWarning] else []) ++
  (if bool_decide (back = None) && negb (is_same W Nothing)
   then [noOutboundWarning] else []).

(** The contexts met from [p] on by following a neighbour slot until it is
    null, at most [fuel] of them. *)
Fixpoint walk (next : Context -> option Ptr) (h : Heap) (fuel : nat)
    (p : option Ptr) : list Ptr :=
  match fuel, p with
  | S fuel', Some a =>
      a :: match h !! a with
           | Some c => walk next h fuel' (next c)
           | None => []
           end
  | _, _ => []
  end.

(** [a] comes before [b] in [l]. *)
Definition before (l : list Ptr) (a b : Ptr) : Prop :=
  exists i j, i < j /\ l !! i = Some a /\ l !! j = Some b.

Definition is_warning (e : Event) : bool :=
  match e with log_warning _ => true | _ => false end.

(** How many times [attachPipeline] is called on [ctx] in a trace. *)
Definition attach_count (ctx : Ptr) (t : list Event) : nat :=
  length (filter (fun e => e = attachPipeline ctx) t).

(** The neighbour slots of the object at [p]; the outer option is [None] at
    an address that holds no context. *)
Definition nextIn (h : Heap) (p : Ptr) : option (option Ptr) := nextIn_ <$> h !! p.
Definition nextOut (h : Heap) (p : Ptr) : option (option Ptr) := nextOut_ <$> h !! p.

(** One assignment to a neighbour slot, and the assignments finalize makes,
    in program order. *)
Inductive Write : Type :=
  | WIn (p : Ptr) (n : option Ptr)
  | WOut (p : Ptr) (n : option Ptr).

Definition applyW (h : Heap) (w : Write) : Heap :=
  match w with
  | WIn p n => setNextIn p n h
  | WOut p n => setNextOut p n h
  end.

Definition inWrite (v : list Ptr) (i : nat) : option Write :=
  match v !! i, v !! (i + 1) with
  | Some c, Some n => Some (WIn c (Some n))
  | _, _ => None
  end.

Definition outWrite (v : list Ptr) (i : nat) : option Write :=
  match v !! i, v !! (i - 1) with
  | Some c, Some n => Some (WOut c (Some n))
  | _, _ => None
  end.

Definition inWrites (v : list Ptr) : list Write :=
  omap (inWrite v) (seq 0 (length v - 1)).

Definition outWrites (v : list Ptr) : list Write :=
  omap (outWrite v) (reverse (seq 1 (length v - 1))).

Definition wiring (p : Pipeline) : list Write :=
  inWrites (inCtxs_ p) ++ outWrites (outCtxs_ p).

(** The effect of one assignment on the object at [p], and on each of its
    two slots. *)
Definition ctxW (p : Ptr) (c : Context) (w : Write) : Context :=
  match w with
  | WIn q n => if bool_decide (q = p) then ctx_setNextIn n c else c
  | WOut q n => if bool_decide (q = p) then ctx_setNextOut n c else c
  end.

Definition slotIn (p : Ptr) (d : option Ptr) (w : Write) : option Ptr :=
  match w with
  | WIn q n => if bool_decide (q = p) then n else d
  | WOut _ _ => d
  end.

Definition slotOut (p : Ptr) (d : option Ptr) (w : Write) : option Ptr :=
  match w with
  | WOut q n => if bool_decide (q = p) then n else d
  | WIn _ _ => d
  end.

(** The two contract violations of the dispatch functions, which the code
    raises as [std::invalid_argument] with the text naming the function. *)
Definition NoInboundHandler (fn : string) : Exn :=
  invalid_argument (fn +:+ "(): no inbound handler in Pipeline").

Definition NoOutboundHandler (fn : string) : Exn :=
  invalid_argument (fn +:+ "(): no outbound handler in Pipeline").

(** The invariant of reachable states. *)
Record wf (s : State) : Prop := mkWf {
  wf_nodup : NoDup (ctxs_ (self s));
  wf_valid : forall p, p ∈ ctxs_ (self s) -> p < length (heap s);
  wf_in : inCtxs_ (self s) = filter (fun p => isInbound (heap s) p) (ctxs_ (self s));
  wf_out : outCtxs_ (self s) = filter (fun p => isOutbound (heap s) p) (ctxs_ (self s));
  wf_tail : forall p, last (inCtxs_ (self s)) = Some p -> nextIn (heap s) p = Some None;
  wf_head : forall p, head (outCtxs_ (self s)) = Some p -> nextOut (heap s) p = Some None;
  wf_front : inCtxs_ (self s) = [] -> front_ (self s) = None;
  wf_back : outCtxs_ (self s) = [] -> back_ (self s) = None
}.

(** * Properties *)

Example s5_vectors :
  ctxs_ (self Scenario.s5) = [0; 1; 2] /\
  inCtxs_ (self Scenario.s5) = [0; 1] /\
  outCtxs_ (self Scenario.s5) = [1; 2].
Proof. repeat split; reflexivity. Qed.

Example s5_wiring :
  front_ (self Scenario.s5) = Some 0 /\
  back_ (self Scenario.s5) = Some 2 /\
  nextIn (heap Scenario.s5) 0 = Some (Some 1) /\
  nextIn (heap Scenario.s5) 1 = Some None /\
  nextOut (heap Scenario.s5) 2 = Some (Some 1) /\
  nextOut (heap Scenario.s5) 1 = Some None.
Proof. repeat split; reflexivity. Qed.

Example s5_trace :
  trace Scenario.s5 = [attachPipeline 2; attachPipeline 1; attachPipeline 0].
Proof. reflexivity. Qed.

Example single_wiring :
  front_ (self Scenario.single) = Some 0 /\
  back_ (self Scenario.single) = Some 0 /\
  nextIn (heap Scenario.single) 0 = Some None /\
  nextOut (heap Scenario.single) 0 = Some None.
Proof. repeat split; reflexivity. Qed.

Example s3_teardown :
  fst Scenario.s3 = true /\
  trace (destroy (snd Scenario.s3))
  = trace Scenario.s5 ++ [detachPipeline 0; detachPipeline 2].
Proof. split; reflexivity. Qed.

(** S2: an empty [Pipeline<IOBufQueue&, Nothing>] warns about the inbound
    direction only. *)
Example s2_trace :
  trace (finalize Scenario.bytes Nothing new) =
  [log_warning
     "No inbound handler in Pipeline, inbound operations will throw std::invalid_argument"].
Proof. reflexivity. Qed.

(** ** Field projections of the state transformers *)

Lemma self_emit es s : self (emit es s) = self s.
Proof. reflexivity. Qed.

Lemma heap_emit es s : heap (emit es s) = heap s.
Proof. reflexivity. Qed.

Lemma trace_emit es s : trace (emit es s) = trace s ++ es.
Proof. reflexivity. Qed.

Lemma for_each_app {A S} (l k : list A) (body : A -> S -> S) (s : S) :
  for_each (l ++ k) body s = for_each k body (for_each l body s).
Proof. unfold for_each. apply foldl_app. Qed.

(** A loop whose body only emits events leaves pipeline and heap alone and
    appends the events of its iterations. *)
Lemma for_each_emit {A} (l : list A) (f : A -> list Event) (s : State) :
  for_each l (fun x => emit (f x)) s = emit (concat (f <$> l)) s.
Proof.
  revert s. induction l as [|x l IH]; intros s.
  - destruct s; unfold emit; simpl. by rewrite app_nil_r.
  - change (for_each (x :: l) (fun x => emit (f x)) s)
      with (for_each l (fun x => emit (f x)) (emit (f x) s)).
    rewrite IH. unfold emit; simpl. by rewrite <- app_assoc.
Qed.

(** ** Dispatch on a pipeline without a servicing handler *)

(** C3: with the direction enabled and the entry pointer null, [read],
    [readEOF] and [readException] raise NoInboundHandler, [write] and
    [close] raise NoOutboundHandler, each leaving the state as it was, and
    [transportActive] and [transportInactive] return with the state
    unchanged. *)
Theorem dispatch_without_handler (R W : Ty) (msg e : nat) (s : State) :
  (forall HR : enabled R,
     front_ (self s) = None ->
     read R HR msg s = Throws (NoInboundHandler "read") s /\
     readEOF R HR s = Throws (NoInboundHandler "readEOF") s /\
     readException R HR e s = Throws (NoInboundHandler "readException") s /\
     transportActive R HR s = Returns tt s /\
     transportInactive R HR s = Returns tt s) /\
  (forall HW : enabled W,
     back_ (self s) = None ->
     write W HW msg s = Throws (NoOutboundHandler "write") s /\
     close W HW s = Throws (NoOutboundHandler "close") s).
Proof.
  split.
  - intros HR Hf.
    unfold read, readEOF, readException, transportActive, transportInactive.
    rewrite Hf. repeat split.
  - intros HW Hb. unfold write, close. rewrite Hb. repeat split.
Qed.

Lemma dispatch_without_handler_witness :
  (read Scenario.bytes eq_refl 7 new = Throws (NoInboundHandler "read") new /\
   readEOF Scenario.bytes eq_refl new = Throws (NoInboundHandler "readEOF") new /\
   readException Scenario.bytes eq_refl 3 new
     = Throws (NoInboundHandler "readException") new /\
   transportActive Scenario.bytes eq_refl new = Returns tt new /\
   transportInactive Scenario.bytes eq_refl new = Returns tt new) /\
  (write Scenario.bonk eq_refl 7 new = Throws (NoOutboundHandler "write") new /\
   close Scenario.bonk eq_refl new = Throws (NoOutboundHandler "close") new).
Proof.
  split.
  - apply (proj1 (dispatch_without_handler Scenario.bytes Scenario.bonk 7 3 new)).
    reflexivity.
  - apply (proj2 (dispatch_without_handler Scenario.bytes Scenario.bonk 7 3 new)).
    reflexivity.
Defined.

(** ** deletePipeline *)

(** C10: without a manager [deletePipeline] returns the state it was given;
    with manager [m] its one effect is the call [m->deletePipeline(this)]. *)
Theorem deletePipeline_forwards (this : Ptr) (s : State) :
  (manager_ (self s) = None -> deletePipeline this s = s) /\
  (forall m, manager_ (self s) = Some m ->
     self (deletePipeline this s) = self s /\
     heap (deletePipeline this s) = heap s /\
     trace (deletePipeline this s) = trace s ++ [manager_deletePipeline m this]).
Proof.
  unfold deletePipeline. split.
  - intros ->. reflexivity.
  - intros m ->. repeat split.
Qed.

Lemma deletePipeline_forwards_witness :
  deletePipeline 1000 Scenario.s5 = Scenario.s5 /\
  trace (deletePipeline 1000 (setPipelineManager (Some 9) Scenario.s5))
  = trace Scenario.s5 ++ [manager_deletePipeline 9 1000].
Proof.
  split.
  - apply (proj1 (deletePipeline_forwards 1000 Scenario.s5)). reflexivity.
  - apply (proj2 (deletePipeline_forwards 1000
                    (setPipelineManager (Some 9) Scenario.s5)) 9).
    reflexivity.
Defined.

(** ** getHandler *)

(** C8: when position [i] of [ctxs_] holds a context, [getHandler<T>(i)]
    returns that context's handler if the context was built for [T], and
    fails its CHECK, aborting at the call, if it was built for another
    handler type. *)
Theorem getHandler_checks_type (T : HandlerType) (i : nat) (s : State)
    (p : Ptr) (c : Context) :
  ctxs_ (self s) !! i = Some p ->
  heap s !! p = Some c ->
  (handlerType c = T -> getHandler T (Z.of_nat i) s = Returns (handler_ c) s) /\
  (handlerType c <> T -> getHandler T (Z.of_nat i) s = CheckFailed s).
Proof.
  intros Hi Hp. unfold getHandler, dynamic_cast_Context.
  rewrite bool_decide_true by lia. rewrite Nat2Z.id, Hi, Hp.
  split; intros HT.
  - by rewrite bool_decide_true.
  - by rewrite bool_decide_false.
Qed.

Lemma getHandler_checks_type_witness :
  getHandler Scenario.Bb 1 Scenario.s5 = Returns 102 Scenario.s5 /\
  getHandler Scenario.Ai 1 Scenario.s5 = CheckFailed Scenario.s5.
Proof.
  pose proof (getHandler_checks_type Scenario.Bb 1 Scenario.s5 1
                (mkContext 1000 Scenario.Bb 102 None None) eq_refl eq_refl) as HB.
  pose proof (getHandler_checks_type Scenario.Ai 1 Scenario.s5 1
                (mkContext 1000 Scenario.Bb 102 None None) eq_refl eq_refl) as HA.
  split.
  - apply (proj1 HB). reflexivity.
  - apply (proj2 HA). discriminate.
Defined.

(** ** Assembly *)

Lemma addHelper_spec (ctx : Ptr) (front : bool) (s : State) :
  let s' := addHelper ctx front s in
  heap s' = heap s /\ trace s' = trace s /\
  ctxs_ (self s') = vec_insert front ctx (ctxs_ (self s)) /\
  inCtxs_ (self s') =
    (if isInbound (heap s) ctx then vec_insert front ctx (inCtxs_ (self s))
     else inCtxs_ (self s)) /\
  outCtxs_ (self s') =
    (if isOutbound (heap s) ctx then vec_insert front ctx (outCtxs_ (self s))
     else outCtxs_ (self s)) /\
  front_ (self s') = front_ (self s) /\ back_ (self s') = back_ (self s) /\
  owner_ (self s') = owner_ (self s) /\ manager_ (self s') = manager_ (self s) /\
  isStatic_ (self s') = isStatic_ (self s).
Proof.
  unfold addHelper; simpl.
  destruct (isInbound (heap s) ctx); simpl;
    destruct (isOutbound (heap s) ctx); simpl; repeat split.
Qed.

Lemma isInbound_new (this : Ptr) (handler : Handler) (h : list Context) :
  isInbound (h ++ [newContext this handler]) (length h)
  = inboundDir (dir (htype handler)).
Proof. unfold isInbound. by rewrite list_lookup_middle. Qed.

Lemma isOutbound_new (this : Ptr) (handler : Handler) (h : list Context) :
  isOutbound (h ++ [newContext this handler]) (length h)
  = outboundDir (dir (htype handler)).
Proof. unfold isOutbound. by rewrite list_lookup_middle. Qed.

Lemma add_spec (this : Ptr) (handler : Handler) (front : bool) (s : State) :
  let s' := (if front then addFront else addBack) this handler s in
  let ctx := length (heap s) in
  heap s' = heap s ++ [newContext this handler] /\ trace s' = trace s /\
  ctxs_ (self s') = vec_insert front ctx (ctxs_ (self s)) /\
  inCtxs_ (self s') =
    (if inboundDir (dir (htype handler))
     then vec_insert front ctx (inCtxs_ (self s)) else inCtxs_ (self s)) /\
  outCtxs_ (self s') =
    (if outboundDir (dir (htype handler))
     then vec_insert front ctx (outCtxs_ (self s)) else outCtxs_ (self s)) /\
  front_ (self s') = front_ (self s) /\ back_ (self s') = back_ (self s) /\
  owner_ (self s') = owner_ (self s) /\ manager_ (self s') = manager_ (self s) /\
  isStatic_ (self s') = isStatic_ (self s).
Proof.
  intros s' ctx.
  assert (s' = addHelper ctx front
                 (with_heap (fun _ => heap s ++ [newContext this handler]) s)) as ->.
  { subst s'. by destruct front. }
  pose proof (addHelper_spec ctx front
                (with_heap (fun _ => heap s ++ [newContext this handler]) s)) as H.
  simpl in H. subst ctx.
  rewrite isInbound_new, isOutbound_new in H. exact H.
Qed.

(** C9: [addFront] and [addBack] allocate one context and insert its address
    at the respective end of [ctxs_] and, per the handler's direction, of
    [inCtxs_] and [outCtxs_]; [front_], [back_], the trace (so no
    [attachPipeline] call) and every context already on the heap, with its
    [nextIn] and [nextOut], are as before. *)
Theorem add_frame (this : Ptr) (handler : Handler) (front : bool) (s : State) :
  let s' := (if front then addFront else addBack) this handler s in
  let ctx := length (heap s) in
  ctxs_ (self s') = vec_insert front ctx (ctxs_ (self s)) /\
  inCtxs_ (self s') =
    (if inboundDir (dir (htype handler))
     then vec_insert front ctx (inCtxs_ (self s)) else inCtxs_ (self s)) /\
  outCtxs_ (self s') =
    (if outboundDir (dir (htype handler))
     then vec_insert front ctx (outCtxs_ (self s)) else outCtxs_ (self s)) /\
  front_ (self s') = front_ (self s) /\
  back_ (self s') = back_ (self s) /\
  trace s' = trace s /\
  heap s' = heap s ++ [newContext this handler] /\
  (forall p c, heap s !! p = Some c ->
     heap s' !! p = Some c /\
     nextIn (heap s') p = Some (nextIn_ c) /\
     nextOut (heap s') p = Some (nextOut_ c)).
Proof.
  intros s' ctx.
  destruct (add_spec this handler front s)
    as (Hh & Ht & Hc & Hi & Ho & Hf & Hb & _).
  fold s' in Hh, Ht, Hc, Hi, Ho, Hf, Hb. fold ctx in Hc, Hi, Ho.
  repeat split; try assumption.
  all: unfold nextIn, nextOut; rewrite Hh, lookup_app_l_Some with (x := c);
    done.
Qed.

Lemma add_frame_witness :
  heap (addFront 1000 (mkHandler Scenario.Ai 104) Scenario.s5) !! 2
  = Some (mkContext 1000 Scenario.Co 103 None (Some 1)) /\
  nextOut (heap (addBack 1000 (mkHandler Scenario.Bb 105) Scenario.s5)) 2
  = Some (Some 1).
Proof.
  pose proof (add_frame 1000 (mkHandler Scenario.Ai 104) true Scenario.s5) as HF.
  pose proof (add_frame 1000 (mkHandler Scenario.Bb 105) false Scenario.s5) as HB.
  cbv zeta in HF, HB.
  destruct HF as (_ & _ & _ & _ & _ & _ & _ & HF).
  destruct HB as (_ & _ & _ & _ & _ & _ & _ & HB).
  split.
  - apply (HF 2 (mkContext 1000 Scenario.Co 103 None (Some 1))). reflexivity.
  - apply (HB 2 (mkContext 1000 Scenario.Co 103 None (Some 1))). reflexivity.
Defined.

(** ** Teardown *)

Lemma detachHandlers_spec (s : State) :
  detachHandlers s =
  emit (detachPipeline <$>
          filter (fun ctx => Some ctx <> owner_ (self s)) (ctxs_ (self s))) s.
Proof.
  unfold detachHandlers.
  generalize (ctxs_ (self s)) as l.
  assert (forall l t,
    for_each l
      (fun ctx acc =>
         if bool_decide (Some ctx <> owner_ (self acc))
         then emit [detachPipeline ctx] acc else acc)
      (mkState (self s) (heap s) t)
    = mkState (self s) (heap s)
        (t ++ (detachPipeline <$>
                 filter (fun ctx => Some ctx <> owner_ (self s)) l))) as H.
  { induction l as [|x l IH]; intros t.
    - simpl. by rewrite app_nil_r.
    - unfold for_each in *. simpl. rewrite filter_cons.
      case_bool_decide; case_decide; try contradiction.
      + unfold emit. simpl. rewrite IH. by rewrite <- app_assoc.
      + apply IH. }
  intros l. destruct s as [p h t]. apply H.
Qed.

(** C5: the destructor of a non-static pipeline calls [detachPipeline] on
    the contexts of [ctxs_] other than the owner, in [ctxs_] order, and does
    nothing else; the owner gets no call; the destructor of a static
    pipeline does nothing. *)
Theorem destroy_detaches (s : State) :
  (isStatic_ (self s) = false ->
     self (destroy s) = self s /\ heap (destroy s) = heap s /\
     trace (destroy s) =
       trace s ++ (detachPipeline <$>
                     filter (fun ctx => Some ctx <> owner_ (self s))
                            (ctxs_ (self s))) /\
     (forall o, owner_ (self s) = Some o ->
        detachPipeline o ∉
          (detachPipeline <$>
             filter (fun ctx => Some ctx <> owner_ (self s)) (ctxs_ (self s))))) /\
  (isStatic_ (self s) = true -> destroy s = s).
Proof.
  unfold destroy. split; intros ->; simpl; [|done].
  rewrite detachHandlers_spec. repeat split.
  intros o Ho Hin. apply list_elem_of_fmap in Hin as (x & Hx & Hin).
  apply list_elem_of_filter in Hin as [Hne _].
  inversion Hx; subst. by rewrite Ho in Hne.
Qed.

Lemma destroy_detaches_witness :
  trace (destroy (snd (setOwner (mkHandler Scenario.Bb 102) Scenario.s5)))
  = trace Scenario.s5 ++ [detachPipeline 0; detachPipeline 2] /\
  destroy (addBack 1000 (mkHandler Scenario.Ai 101) (mkState (initial true) [] []))
  = addBack 1000 (mkHandler Scenario.Ai 101) (mkState (initial true) [] []).
Proof.
  split.
  - apply (proj1 (destroy_detaches
                    (snd (setOwner (mkHandler Scenario.Bb 102) Scenario.s5)))).
    reflexivity.
  - apply (proj2 (destroy_detaches
                    (addBack 1000 (mkHandler Scenario.Ai 101)
                       (mkState (initial true) [] [])))).
    reflexivity.
Defined.

(** ** The assignments of finalize *)

Lemma for_each_writes {A} (l : list A) (body : A -> list Context -> list Context)
    (w : A -> option Write) (h : list Context) :
  (forall i h', body i h' = from_option (applyW h') h' (w i)) ->
  for_each l body h = foldl applyW h (omap w l).
Proof.
  intros Hb. revert h. induction l as [|i l IH]; intros h; [done|].
  unfold for_each in *. simpl. rewrite IH, Hb.
  destruct (w i); reflexivity.
Qed.

Lemma linkIn_write (v : list Ptr) (i : nat) (h : list Context) :
  linkIn v i (i + 1) h = from_option (applyW h) h (inWrite v i).
Proof.
  unfold linkIn, inWrite.
  destruct (v !! i); [|done]. destruct (v !! (i + 1)); done.
Qed.

Lemma linkOut_write (v : list Ptr) (i : nat) (h : list Context) :
  linkOut v i (i - 1) h = from_option (applyW h) h (outWrite v i).
Proof.
  unfold linkOut, outWrite.
  destruct (v !! i); [|done]. destruct (v !! (i - 1)); done.
Qed.

Lemma finalize_inbound_spec (R : Ty) (s : State) :
  let s' := finalize_inbound R s in
  heap s' = foldl applyW (heap s) (inWrites (inCtxs_ (self s))) /\
  trace s' = trace s /\
  self s' =
    match inCtxs_ (self s) with
    | [] => self s
    | c0 :: _ => set_front (dynamic_cast_InboundLink R (heap s) c0) (self s)
    end.
Proof.
  unfold finalize_inbound. destruct (inCtxs_ (self s)) as [|c0 l] eqn:E; simpl.
  - done.
  - repeat split.
    erewrite for_each_writes; [reflexivity|].
    intros i h'. apply linkIn_write.
Qed.

Lemma finalize_outbound_spec (W : Ty) (s : State) :
  let s' := finalize_outbound W s in
  heap s' = foldl applyW (heap s) (outWrites (outCtxs_ (self s))) /\
  trace s' = trace s /\
  self s' =
    match last (outCtxs_ (self s)) with
    | None => self s
    | Some cn => set_back (dynamic_cast_OutboundLink W (heap s) cn) (self s)
    end.
Proof.
  unfold finalize_outbound.
  destruct (last (outCtxs_ (self s))) as [cn|] eqn:E; simpl.
  - repeat split.
    erewrite for_each_writes; [reflexivity|].
    intros i h'. apply linkOut_write.
  - apply last_None in E. rewrite E. done.
Qed.

Lemma logWarningIfNotNothing_spec (T : Ty) (text : string) (s : State) :
  self (logWarningIfNotNothing T text s) = self s /\
  heap (logWarningIfNotNothing T text s) = heap s /\
  exists ws, Forall (fun e => is_warning e = true) ws /\
    trace (logWarningIfNotNothing T text s) = trace s ++ ws.
Proof.
  destruct T; simpl; repeat split.
  - exists []. by rewrite app_nil_r.
  - exists [log_warning text]. split; [|done]. by constructor.
Qed.

Lemma finalize_warn_spec (R W : Ty) (s : State) :
  self (finalize_warn R W s) = self s /\
  heap (finalize_warn R W s) = heap s /\
  exists ws, Forall (fun e => is_warning e = true) ws /\
    trace (finalize_warn R W s) = trace s ++ ws.
Proof.
  unfold finalize_warn.
  set (t1 := "No inbound handler in Pipeline, inbound operations will throw std::invalid_argument").
  set (t2 := "No outbound handler in Pipeline, outbound operations will throw std::invalid_argument").
  assert (exists s1, self s1 = self s /\ heap s1 = heap s /\
            (exists ws, Forall (fun e => is_warning e = true) ws /\
                        trace s1 = trace s ++ ws) /\
            s1 = match front_ (self s) with
                 | Some _ => s
                 | None => logWarningIfNotNothing R t1 s
                 end) as (s1 & Hs & Hh & (ws1 & Hw1 & Ht1) & <-).
  { eexists; split_and!; [| | |reflexivity].
    - destruct (front_ (self s)); [done|]. apply logWarningIfNotNothing_spec.
    - destruct (front_ (self s)); [done|]. apply logWarningIfNotNothing_spec.
    - destruct (front_ (self s)).
      + exists []. by rewrite app_nil_r.
      + apply logWarningIfNotNothing_spec. }
  destruct (back_ (self s1)).
  - split_and!; [done..|]. by exists ws1.
  - destruct (logWarningIfNotNothing_spec W t2 s1) as (Hs2 & Hh2 & ws2 & Hw2 & Ht2).
    split_and!; [congruence..|].
    exists (ws1 ++ ws2). split; [by apply Forall_app|].
    rewrite Ht2, Ht1. by rewrite <- app_assoc.
Qed.

Lemma finalize_attach_spec (s : State) :
  finalize_attach s = emit (attachPipeline <$> reverse (ctxs_ (self s))) s.
Proof.
  unfold finalize_attach.
  rewrite (for_each_emit _ (fun ctx => [attachPipeline ctx])).
  f_equal. generalize (reverse (ctxs_ (self s))) as l.
  induction l as [|x l IH]; [done|].
  rewrite !fmap_cons. simpl. f_equal. exact IH.
Qed.

Lemma foldl_applyW_length (ws : list Write) (h : list Context) :
  length (foldl applyW h ws) = length h.
Proof.
  revert h. induction ws as [|w ws IH]; intros h; simpl; [done|].
  rewrite IH. destruct w; apply length_alter.
Qed.

Lemma applyW_lookup (w : Write) (h : list Context) (p : Ptr) :
  applyW h w !! p = (fun c => ctxW p c w) <$> h !! p.
Proof.
  destruct w as [q n|q n]; simpl; unfold setNextIn, setNextOut;
    rewrite list_lookup_alter; case_bool_decide; case_decide; try congruence;
    subst; by destruct (h !! p).
Qed.

Lemma foldl_applyW_lookup (ws : list Write) (h : list Context) (p : Ptr) :
  foldl applyW h ws !! p = (fun c => foldl (ctxW p) c ws) <$> h !! p.
Proof.
  revert h. induction ws as [|w ws IH]; intros h; simpl.
  - by destruct (h !! p).
  - rewrite IH, applyW_lookup. by destruct (h !! p).
Qed.

Lemma foldl_ctxW (ws : list Write) (p : Ptr) (c : Context) :
  foldl (ctxW p) c ws =
  mkContext (pipeline_ c) (handlerType c) (handler_ c)
    (foldl (slotIn p) (nextIn_ c) ws) (foldl (slotOut p) (nextOut_ c) ws).
Proof.
  revert c. induction ws as [|w ws IH]; intros c; simpl.
  - by destruct c.
  - rewrite IH. destruct w as [q n|q n]; simpl; case_bool_decide; done.
Qed.

(** The store after a run of assignments, slot by slot. *)
Lemma writes_nextIn (ws : list Write) (h : list Context) (p : Ptr) :
  nextIn (foldl applyW h ws) p
  = (fun c => foldl (slotIn p) (nextIn_ c) ws) <$> h !! p.
Proof.
  unfold nextIn. rewrite foldl_applyW_lookup.
  destruct (h !! p) as [c|]; simpl; [|done]. by rewrite foldl_ctxW.
Qed.

Lemma writes_nextOut (ws : list Write) (h : list Context) (p : Ptr) :
  nextOut (foldl applyW h ws) p
  = (fun c => foldl (slotOut p) (nextOut_ c) ws) <$> h !! p.
Proof.
  unfold nextOut. rewrite foldl_applyW_lookup.
  destruct (h !! p) as [c|]; simpl; [|done]. by rewrite foldl_ctxW.
Qed.

Lemma writes_handlerType (ws : list Write) (h : list Context) (p : Ptr) :
  handlerType <$> foldl applyW h ws !! p = handlerType <$> h !! p.
Proof.
  rewrite foldl_applyW_lookup.
  destruct (h !! p) as [c|]; simpl; [|done]. by rewrite foldl_ctxW.
Qed.

Lemma writes_isInbound (ws : list Write) (h : list Context) (p : Ptr) :
  isInbound (foldl applyW h ws) p = isInbound h p.
Proof.
  unfold isInbound. pose proof (writes_handlerType ws h p) as H.
  destruct (foldl applyW h ws !! p), (h !! p); simplify_eq/=; by rewrite ?H.
Qed.

Lemma writes_isOutbound (ws : list Write) (h : list Context) (p : Ptr) :
  isOutbound (foldl applyW h ws) p = isOutbound h p.
Proof.
  unfold isOutbound. pose proof (writes_handlerType ws h p) as H.
  destruct (foldl applyW h ws !! p), (h !! p); simplify_eq/=; by rewrite ?H.
Qed.

Lemma writes_cast_InboundLink (R : Ty) (ws : list Write) (h : list Context) (p : Ptr) :
  dynamic_cast_InboundLink R (foldl applyW h ws) p = dynamic_cast_InboundLink R h p.
Proof.
  unfold dynamic_cast_InboundLink. pose proof (writes_handlerType ws h p) as H.
  destruct (foldl applyW h ws !! p), (h !! p); simplify_eq/=; by rewrite ?H.
Qed.

Lemma writes_cast_OutboundLink (W : Ty) (ws : list Write) (h : list Context) (p : Ptr) :
  dynamic_cast_OutboundLink W (foldl applyW h ws) p = dynamic_cast_OutboundLink W h p.
Proof.
  unfold dynamic_cast_OutboundLink. pose proof (writes_handlerType ws h p) as H.
  destruct (foldl applyW h ws !! p), (h !! p); simplify_eq/=; by rewrite ?H.
Qed.

(** A slot no assignment names keeps its value; a slot that all the
    assignments naming it give the same value ends with that value. *)
Lemma slotIn_untouched (p : Ptr) (ws : list Write) (d : option Ptr) :
  (forall n, WIn p n ∉ ws) -> foldl (slotIn p) d ws = d.
Proof.
  revert d. induction ws as [|w ws IH]; intros d Hn; simpl; [done|].
  rewrite IH.
  - destruct w as [q n|q n]; simpl; [|done].
    case_bool_decide; [|done]. subst. exfalso. apply (Hn n). left.
  - intros n Hin. apply (Hn n). by right.
Qed.

Lemma slotOut_untouched (p : Ptr) (ws : list Write) (d : option Ptr) :
  (forall n, WOut p n ∉ ws) -> foldl (slotOut p) d ws = d.
Proof.
  revert d. induction ws as [|w ws IH]; intros d Hn; simpl; [done|].
  rewrite IH.
  - destruct w as [q n|q n]; simpl; [done|].
    case_bool_decide; [|done]. subst. exfalso. apply (Hn n). left.
  - intros n Hin. apply (Hn n). by right.
Qed.

Lemma slotIn_determined (p : Ptr) (ws : list Write) (d n : option Ptr) :
  WIn p n ∈ ws -> (forall n', WIn p n' ∈ ws -> n' = n) ->
  foldl (slotIn p) d ws = n.
Proof.
  induction ws as [|w ws IH] using rev_ind; intros Hin Hall.
  - by apply elem_of_nil in Hin.
  - rewrite foldl_app. simpl.
    destruct w as [q m|q m]; simpl.
    + case_bool_decide as Hq.
      * subst q. apply Hall. apply elem_of_app. right. left.
      * apply IH.
        -- apply elem_of_app in Hin as [Hin|Hin]; [done|].
           apply list_elem_of_singleton in Hin. congruence.
        -- intros n' Hn'. apply Hall. apply elem_of_app. by left.
    + apply IH.
      * apply elem_of_app in Hin as [Hin|Hin]; [done|].
        apply list_elem_of_singleton in Hin. congruence.
      * intros n' Hn'. apply Hall. apply elem_of_app. by left.
Qed.

Lemma slotOut_determined (p : Ptr) (ws : list Write) (d n : option Ptr) :
  WOut p n ∈ ws -> (forall n', WOut p n' ∈ ws -> n' = n) ->
  foldl (slotOut p) d ws = n.
Proof.
  induction ws as [|w ws IH] using rev_ind; intros Hin Hall.
  - by apply elem_of_nil in Hin.
  - rewrite foldl_app. simpl.
    destruct w as [q m|q m]; simpl.
    + apply IH.
      * apply elem_of_app in Hin as [Hin|Hin]; [done|].
        apply list_elem_of_singleton in Hin. congruence.
      * intros n' Hn'. apply Hall. apply elem_of_app. by left.
    + case_bool_decide as Hq.
      * subst q. apply Hall. apply elem_of_app. right. left.
      * apply IH.
        -- apply elem_of_app in Hin as [Hin|Hin]; [done|].
           apply list_elem_of_singleton in Hin. congruence.
        -- intros n' Hn'. apply Hall. apply elem_of_app. by left.
Qed.

(** Whatever the assignments, a slot either keeps its value or ends with a
    value fixed by the assignments alone. *)
Lemma slotIn_keeps_or_fixes (p : Ptr) (ws : list Write) :
  (forall d, foldl (slotIn p) d ws = d) \/
  (exists n, forall d, foldl (slotIn p) d ws = n).
Proof.
  induction ws as [|w ws IH] using rev_ind; [by left|].
  destruct w as [q m|q m].
  - destruct (decide (q = p)) as [->|Hq].
    + right. exists m. intros d. rewrite foldl_app. simpl.
      by rewrite bool_decide_true.
    + destruct IH as [IH|[n IH]]; [left|right; exists n]; intros d;
        rewrite foldl_app; simpl; by rewrite bool_decide_false, IH.
  - destruct IH as [IH|[n IH]]; [left|right; exists n]; intros d;
      rewrite foldl_app; simpl; by rewrite IH.
Qed.

Lemma slotOut_keeps_or_fixes (p : Ptr) (ws : list Write) :
  (forall d, foldl (slotOut p) d ws = d) \/
  (exists n, forall d, foldl (slotOut p) d ws = n).
Proof.
  induction ws as [|w ws IH] using rev_ind; [by left|].
  destruct w as [q m|q m].
  - destruct IH as [IH|[n IH]]; [left|right; exists n]; intros d;
      rewrite foldl_app; simpl; by rewrite IH.
  - destruct (decide (q = p)) as [->|Hq].
    + right. exists m. intros d. rewrite foldl_app. simpl.
      by rewrite bool_decide_true.
    + destruct IH as [IH|[n IH]]; [left|right; exists n]; intros d;
        rewrite foldl_app; simpl; by rewrite bool_decide_false, IH.
Qed.

(** Running the same assignments a second time changes nothing. *)
Lemma writes_idempotent (ws : list Write) (h : list Context) :
  foldl applyW (foldl applyW h ws) ws = foldl applyW h ws.
Proof.
  apply list_eq. intros p.
  rewrite (foldl_applyW_lookup ws (foldl applyW h ws)), foldl_applyW_lookup.
  destruct (h !! p) as [c|]; simpl; [|done].
  f_equal. rewrite !foldl_ctxW. simpl. f_equal.
  - destruct (slotIn_keeps_or_fixes p ws) as [H|[n H]]; by rewrite !H.
  - destruct (slotOut_keeps_or_fixes p ws) as [H|[n H]]; by rewrite !H.
Qed.

Lemma elem_of_inWrites (v : list Ptr) (w : Write) :
  w ∈ inWrites v <->
  exists i c n, v !! i = Some c /\ v !! (i + 1) = Some n /\ w = WIn c (Some n).
Proof.
  unfold inWrites. rewrite list_elem_of_omap. split.
  - intros (i & _ & Hw). unfold inWrite in Hw.
    destruct (v !! i) as [c|] eqn:Ei; [|done].
    destruct (v !! (i + 1)) as [n|] eqn:En; [|done].
    exists i, c, n. by simplify_eq.
  - intros (i & c & n & Hi & Hn & ->). exists i. split.
    + apply elem_of_seq. apply lookup_lt_Some in Hn. lia.
    + unfold inWrite. by rewrite Hi, Hn.
Qed.

Lemma elem_of_outWrites (v : list Ptr) (w : Write) :
  w ∈ outWrites v <->
  exists i c n, 1 <= i /\ v !! i = Some c /\ v !! (i - 1) = Some n /\
                w = WOut c (Some n).
Proof.
  unfold outWrites. rewrite list_elem_of_omap. split.
  - intros (i & Hi & Hw). apply elem_of_reverse, elem_of_seq in Hi.
    unfold outWrite in Hw.
    destruct (v !! i) as [c|] eqn:Ei; [|done].
    destruct (v !! (i - 1)) as [n|] eqn:En; [|done].
    exists i, c, n. split; [lia|]. by simplify_eq.
  - intros (i & c & n & Hge & Hi & Hn & ->). exists i. split.
    + apply elem_of_reverse, elem_of_seq. apply lookup_lt_Some in Hi. lia.
    + unfold outWrite. by rewrite Hi, Hn.
Qed.

Lemma finalize_spec (R W : Ty) (s : State) :
  let s' := finalize R W s in
  heap s' = foldl applyW (heap s) (wiring (self s)) /\
  (exists ws, Forall (fun e => is_warning e = true) ws /\
     trace s' = trace s ++ ws ++ (attachPipeline <$> reverse (ctxs_ (self s)))) /\
  ctxs_ (self s') = ctxs_ (self s) /\
  inCtxs_ (self s') = inCtxs_ (self s) /\
  outCtxs_ (self s') = outCtxs_ (self s) /\
  front_ (self s') =
    match inCtxs_ (self s) with
    | [] => front_ (self s)
    | c0 :: _ => dynamic_cast_InboundLink R (heap s) c0
    end /\
  back_ (self s') =
    match last (outCtxs_ (self s)) with
    | None => back_ (self s)
    | Some cn => dynamic_cast_OutboundLink W (heap s) cn
    end /\
  owner_ (self s') = owner_ (self s) /\ manager_ (self s') = manager_ (self s) /\
  isStatic_ (self s') = isStatic_ (self s).
Proof.
  intros s'. subst s'. unfold finalize.
  destruct (finalize_inbound_spec R s) as (Hh1 & Ht1 & Hs1).
  set (s1 := finalize_inbound R s) in *.
  destruct (finalize_outbound_spec W s1) as (Hh2 & Ht2 & Hs2).
  set (s2 := finalize_outbound W s1) in *.
  destruct (finalize_warn_spec R W s2) as (Hs3 & Hh3 & ws & Hws & Ht3).
  set (s3 := finalize_warn R W s2) in *.
  rewrite finalize_attach_spec. simpl.
  assert (ctxs_ (self s1) = ctxs_ (self s) /\ inCtxs_ (self s1) = inCtxs_ (self s) /\
          outCtxs_ (self s1) = outCtxs_ (self s) /\ back_ (self s1) = back_ (self s) /\
          owner_ (self s1) = owner_ (self s) /\ manager_ (self s1) = manager_ (self s) /\
          isStatic_ (self s1) = isStatic_ (self s))
    as (Hc1 & Hi1 & Ho1 & Hb1 & Hw1 & Hm1 & Hst1).
  { rewrite Hs1. destruct (inCtxs_ (self s)) eqn:E; simpl; by rewrite ?E. }
  assert (ctxs_ (self s2) = ctxs_ (self s1) /\ inCtxs_ (self s2) = inCtxs_ (self s1) /\
          outCtxs_ (self s2) = outCtxs_ (self s1) /\ front_ (self s2) = front_ (self s1) /\
          owner_ (self s2) = owner_ (self s1) /\ manager_ (self s2) = manager_ (self s1) /\
          isStatic_ (self s2) = isStatic_ (self s1))
    as (Hc2 & Hi2 & Ho2 & Hf2 & Hw2 & Hm2 & Hst2).
  { rewrite Hs2. destruct (last (outCtxs_ (self s1))); simpl; done. }
  rewrite Hs3.
  split_and!; try congruence.
  - rewrite Hh3, Hh2, Hh1, Ho1. unfold wiring. by rewrite foldl_app.
  - exists ws. split; [done|]. rewrite Ht3, Ht2, Ht1, Hc2, Hc1.
    by rewrite <- app_assoc.
  - rewrite Hf2, Hs1. destruct (inCtxs_ (self s)); done.
  - rewrite Hs2, Ho1. destruct (last (outCtxs_ (self s))) as [cn|]; simpl.
    + rewrite Hh1. apply writes_cast_OutboundLink.
    + done.
Qed.

(** ** The invariant of reachable states *)

Lemma filter_ext_elem {A} (P1 P2 : A -> Prop)
    `{!forall x, Decision (P1 x), !forall x, Decision (P2 x)} (l : list A) :
  (forall x, x ∈ l -> P1 x <-> P2 x) -> filter P1 l = filter P2 l.
Proof.
  induction l as [|a l IH]; intros Hext; [done|].
  rewrite !filter_cons.
  rewrite IH by (intros x Hx; apply Hext; by right).
  pose proof (Hext a (list_elem_of_here a l)) as Ha.
  repeat case_decide; tauto.
Qed.

Lemma vec_insert_elem (front : bool) (x y : Ptr) (v : list Ptr) :
  y ∈ vec_insert front x v <-> y = x \/ y ∈ v.
Proof.
  destruct front; simpl.
  - apply elem_of_cons.
  - rewrite elem_of_app, list_elem_of_singleton. tauto.
Qed.

Lemma vec_insert_NoDup (front : bool) (x : Ptr) (v : list Ptr) :
  x ∉ v -> NoDup v -> NoDup (vec_insert front x v).
Proof.
  intros Hx Hv. destruct front; simpl.
  - by apply NoDup_cons.
  - apply NoDup_app. split_and!; [done| |apply NoDup_singleton].
    intros y Hy ->%list_elem_of_singleton. done.
Qed.

Lemma vec_insert_filter (P : Ptr -> Prop) `{!forall x, Decision (P x)}
    (front : bool) (x : Ptr) (v : list Ptr) :
  filter P (vec_insert front x v)
  = if decide (P x) then vec_insert front x (filter P v) else filter P v.
Proof.
  destruct front; simpl.
  - by rewrite filter_cons.
  - rewrite filter_app, filter_singleton by exact v.
    case_decide; [done|by rewrite app_nil_r].
Qed.

Lemma vec_insert_last (front : bool) (x p : Ptr) (v : list Ptr) :
  last (vec_insert front x v) = Some p -> p = x \/ last v = Some p.
Proof.
  destruct front; simpl.
  - rewrite last_cons. destruct (last v); intros; simplify_eq; auto.
  - rewrite last_snoc. intros; simplify_eq; auto.
Qed.

Lemma vec_insert_head (front : bool) (x p : Ptr) (v : list Ptr) :
  head (vec_insert front x v) = Some p -> p = x \/ head v = Some p.
Proof.
  destruct front; simpl.
  - intros; simplify_eq; auto.
  - destruct v; simpl; intros; simplify_eq; auto.
Qed.

Lemma vec_insert_nil (front : bool) (x : Ptr) (v : list Ptr) :
  vec_insert front x v <> [].
Proof. destruct front, v; done. Qed.

Lemma wf_new : wf new.
Proof.
  split; simpl; try done.
  - apply NoDup_nil_2.
  - intros p Hp. by apply elem_of_nil in Hp.
Qed.

Lemma wf_add (this : Ptr) (handler : Handler) (front : bool) (s : State) :
  wf s -> wf ((if front then addFront else addBack) this handler s).
Proof.
  intros [Hnd Hv Hin Hout Htl Hhd Hfr Hbk].
  destruct (add_spec this handler front s)
    as (Hh & _ & Hc & Hi & Ho & Hf & Hb & _).
  set (s' := (if front then addFront else addBack) this handler s) in *.
  set (ctx := length (heap s)) in *.
  assert (ctx ∉ ctxs_ (self s)) as Hfresh.
  { intros Hx%Hv. subst ctx. lia. }
  assert (forall p, p ∈ ctxs_ (self s) -> heap s' !! p = heap s !! p) as Hold.
  { intros p Hp%Hv. rewrite Hh. by apply lookup_app_l. }
  assert (heap s' !! ctx = Some (newContext this handler)) as Hnew.
  { rewrite Hh. apply list_lookup_middle. done. }
  split.
  - rewrite Hc. by apply vec_insert_NoDup.
  - intros p. rewrite Hc, vec_insert_elem, Hh, length_app. simpl.
    intros [->|Hp%Hv]; subst ctx; lia.
  - rewrite Hc, vec_insert_filter, Hi.
    rewrite (filter_ext_elem (fun p => isInbound (heap s') p)
               (fun p => isInbound (heap s) p)).
    2:{ intros p Hp. unfold isInbound. by rewrite Hold. }
    rewrite <- Hin. rewrite Hh. subst ctx. rewrite isInbound_new.
    destruct (inboundDir (dir (htype handler))); by case_decide.
  - rewrite Hc, vec_insert_filter, Ho.
    rewrite (filter_ext_elem (fun p => isOutbound (heap s') p)
               (fun p => isOutbound (heap s) p)).
    2:{ intros p Hp. unfold isOutbound. by rewrite Hold. }
    rewrite <- Hout. rewrite Hh. subst ctx. rewrite isOutbound_new.
    destruct (outboundDir (dir (htype handler))); by case_decide.
  - intros p Hp.
    assert (p = ctx \/ last (inCtxs_ (self s)) = Some p) as [->|Hl].
    { rewrite Hi in Hp. destruct (inboundDir (dir (htype handler))); [|by right].
      by apply vec_insert_last in Hp. }
    + unfold nextIn. by rewrite Hnew.
    + unfold nextIn. rewrite Hold; [by apply Htl|].
      apply last_Some_elem_of in Hl. rewrite Hin in Hl.
      by apply list_elem_of_filter in Hl as [_ ?].
  - intros p Hp.
    assert (p = ctx \/ head (outCtxs_ (self s)) = Some p) as [->|Hl].
    { rewrite Ho in Hp. destruct (outboundDir (dir (htype handler))); [|by right].
      by apply vec_insert_head in Hp. }
    + unfold nextOut. by rewrite Hnew.
    + unfold nextOut. rewrite Hold; [by apply Hhd|].
      apply head_Some_elem_of in Hl. rewrite Hout in Hl.
      by apply list_elem_of_filter in Hl as [_ ?].
  - rewrite Hi, Hf. destruct (inboundDir (dir (htype handler))); [|done].
    intros E. by apply vec_insert_nil in E.
  - rewrite Ho, Hb. destruct (outboundDir (dir (htype handler))); [|done].
    intros E. by apply vec_insert_nil in E.
Qed.

Lemma wf_NoDup_in (s : State) : wf s -> NoDup (inCtxs_ (self s)).
Proof. intros H. rewrite (wf_in s H). apply NoDup_filter, (wf_nodup s H). Qed.

Lemma wf_NoDup_out (s : State) : wf s -> NoDup (outCtxs_ (self s)).
Proof. intros H. rewrite (wf_out s H). apply NoDup_filter, (wf_nodup s H). Qed.

(** No assignment of finalize names the in-slot of the last inbound context
    or the out-slot of the first outbound context. *)
Lemma wiring_spares_tail (p : Pipeline) (a : Ptr) (n : option Ptr) :
  NoDup (inCtxs_ p) -> last (inCtxs_ p) = Some a -> WIn a n ∉ wiring p.
Proof.
  intros Hnd Hl. unfold wiring. rewrite elem_of_app.
  intros [Hw|Hw].
  - apply elem_of_inWrites in Hw as (i & c & m & Hi & Hm & Heq).
    simplify_eq. rewrite last_lookup in Hl.
    pose proof (NoDup_lookup _ _ _ _ Hnd Hi Hl) as ->.
    apply lookup_lt_Some in Hm, Hi. lia.
  - apply elem_of_outWrites in Hw as (i & c & m & _ & _ & _ & Heq). done.
Qed.

Lemma wiring_spares_head (p : Pipeline) (a : Ptr) (n : option Ptr) :
  NoDup (outCtxs_ p) -> head (outCtxs_ p) = Some a -> WOut a n ∉ wiring p.
Proof.
  intros Hnd Hl. unfold wiring. rewrite elem_of_app.
  intros [Hw|Hw].
  - apply elem_of_inWrites in Hw as (i & c & m & _ & _ & Heq). done.
  - apply elem_of_outWrites in Hw as (i & c & m & Hge & Hi & Hm & Heq).
    simplify_eq. rewrite head_lookup in Hl.
    pose proof (NoDup_lookup _ _ _ _ Hnd Hi Hl). lia.
Qed.

Lemma wf_finalize (R W : Ty) (s : State) : wf s -> wf (finalize R W s).
Proof.
  intros Hwf. pose proof Hwf as [Hnd Hv Hin Hout Htl Hhd Hfr Hbk].
  destruct (finalize_spec R W s) as (Hh & _ & Hc & Hi & Ho & Hf & Hb & _).
  set (s' := finalize R W s) in *.
  split.
  - by rewrite Hc.
  - intros p. rewrite Hc, Hh, foldl_applyW_length. apply Hv.
  - rewrite Hc, Hi, Hin, Hh. apply list_filter_iff.
    intros p. by rewrite writes_isInbound.
  - rewrite Hc, Ho, Hout, Hh. apply list_filter_iff.
    intros p. by rewrite writes_isOutbound.
  - intros p. rewrite Hi, Hh. intros Hp. rewrite writes_nextIn.
    pose proof (Htl p Hp) as Hn. unfold nextIn in Hn.
    destruct (heap s !! p) as [c|]; simplify_eq/=. f_equal.
    rewrite slotIn_untouched; [done|].
    intros n. apply wiring_spares_tail; [by apply wf_NoDup_in|done].
  - intros p. rewrite Ho, Hh. intros Hp. rewrite writes_nextOut.
    pose proof (Hhd p Hp) as Hn. unfold nextOut in Hn.
    destruct (heap s !! p) as [c|]; simplify_eq/=. f_equal.
    rewrite slotOut_untouched; [done|].
    intros n. apply wiring_spares_head; [by apply wf_NoDup_out|done].
  - rewrite Hi, Hf. intros E. rewrite E. by apply Hfr.
  - rewrite Ho, Hb. intros E. rewrite E. simpl. by apply Hbk.
Qed.

Lemma wf_setOwner (handler : Handler) (s : State) :
  wf s -> wf (snd (setOwner handler s)).
Proof.
  intros [Hnd Hv Hin Hout Htl Hhd Hfr Hbk]. unfold setOwner.
  destruct (findOwner _ _ _ _); simpl; by split.
Qed.

Lemma wf_exec (R W : Ty) (this : Ptr) (o : Op) (s : State) :
  wf s -> wf (exec R W this o s).
Proof.
  intros Hwf. destruct o; simpl.
  - by apply (wf_add this handler true).
  - by apply (wf_add this handler false).
  - by apply wf_finalize.
  - by apply wf_setOwner.
  - destruct Hwf. by split.
  - destruct Hwf. unfold deletePipeline. destruct (manager_ (self s)); by split.
  - destruct Hwf. by split.
  - destruct Hwf. by split.
  - destruct Hwf. by split.
Qed.

Lemma wf_run (R W : Ty) (this : Ptr) (ops : list Op) (s : State) :
  wf s -> wf (run R W this ops s).
Proof.
  revert s. induction ops as [|o ops IH]; intros s Hwf; [done|].
  apply IH. by apply wf_exec.
Qed.

Lemma before_cons (x a b : Ptr) (l : list Ptr) : before l a b -> before (x :: l) a b.
Proof.
  intros (i & j & Hlt & Hi & Hj). exists (S i), (S j). split; [lia|done].
Qed.

Lemma before_cons_inv (x a b : Ptr) (l : list Ptr) :
  before (x :: l) a b -> (a = x /\ b ∈ l) \/ before l a b.
Proof.
  intros (i & j & Hlt & Hi & Hj).
  destruct j as [|j]; [lia|]. simpl in Hj.
  destruct i as [|i]; simpl in Hi.
  - left. simplify_eq. split; [done|]. by eapply list_elem_of_lookup_2.
  - right. exists i, j. split; [lia|done].
Qed.

Lemma before_filter (P : Ptr -> Prop) `{!forall x, Decision (P x)}
    (l : list Ptr) (a b : Ptr) :
  before (filter P l) a b -> before l a b.
Proof.
  induction l as [|x l IH]; [done|].
  rewrite filter_cons. case_decide.
  - intros [[-> Hb]|Hab]%before_cons_inv.
    + apply list_elem_of_filter in Hb as [_ Hb].
      apply list_elem_of_lookup in Hb as [j Hj].
      exists 0, (S j). split; [lia|done].
    + by apply before_cons, IH.
  - intros Hab. by apply before_cons, IH.
Qed.

(** ** The derived vectors *)

(** C6: after any history of [addFront], [addBack] and the other public
    operations, [inCtxs_] is [ctxs_] filtered to the contexts of direction
    IN or BOTH and [outCtxs_] is [ctxs_] filtered to those of direction OUT
    or BOTH, no context occurs twice in [ctxs_], and two contexts in order
    in [inCtxs_] or in [outCtxs_] are in that order in [ctxs_]. *)
Theorem vectors_consistent (R W : Ty) (this : Ptr) (ops : list Op) :
  let s := run R W this ops new in
  inCtxs_ (self s) = filter (fun p => isInbound (heap s) p) (ctxs_ (self s)) /\
  outCtxs_ (self s) = filter (fun p => isOutbound (heap s) p) (ctxs_ (self s)) /\
  NoDup (ctxs_ (self s)) /\
  (forall a b, before (inCtxs_ (self s)) a b -> before (ctxs_ (self s)) a b) /\
  (forall a b, before (outCtxs_ (self s)) a b -> before (ctxs_ (self s)) a b).
Proof.
  intros s. pose proof (wf_run R W this ops new wf_new) as Hwf. fold s in Hwf.
  split_and!.
  - apply Hwf.
  - apply Hwf.
  - apply Hwf.
  - intros a b. rewrite (wf_in s Hwf). apply before_filter.
  - intros a b. rewrite (wf_out s Hwf). apply before_filter.
Qed.

Lemma vectors_consistent_witness :
  before [0; 1; 2] 0 1 /\ before [0; 1; 2] 1 2.
Proof.
  pose proof (vectors_consistent Scenario.bytes Scenario.bonk 1000
                [OpAddBack (mkHandler Scenario.Ai 101);
                 OpAddBack (mkHandler Scenario.Bb 102);
                 OpAddBack (mkHandler Scenario.Co 103)]) as H.
  cbv zeta in H. destruct H as (_ & _ & _ & Hi & Ho).
  split.
  - apply (Hi 0 1). exists 0, 1. split; [lia|]. split; reflexivity.
  - apply (Ho 1 2). exists 0, 1. split; [lia|]. split; reflexivity.
Defined.

(** ** Finalize *)

Lemma wf_lookup_in (s : State) (i : nat) (a : Ptr) :
  wf s -> inCtxs_ (self s) !! i = Some a -> is_Some (heap s !! a).
Proof.
  intros Hwf Hi. apply lookup_lt_is_Some, (wf_valid s Hwf).
  apply list_elem_of_lookup_2 in Hi. rewrite (wf_in s Hwf) in Hi.
  by apply list_elem_of_filter in Hi as [_ ?].
Qed.

Lemma wf_lookup_out (s : State) (i : nat) (a : Ptr) :
  wf s -> outCtxs_ (self s) !! i = Some a -> is_Some (heap s !! a).
Proof.
  intros Hwf Hi. apply lookup_lt_is_Some, (wf_valid s Hwf).
  apply list_elem_of_lookup_2 in Hi. rewrite (wf_out s Hwf) in Hi.
  by apply list_elem_of_filter in Hi as [_ ?].
Qed.

(** C1: in a pipeline just finalized, each inbound context but the last has
    the next inbound context as [nextIn] and the last has null; each
    outbound context but the first has the previous outbound context as
    [nextOut] and the first has null. *)
Theorem finalize_wires_chains (R W : Ty) (this : Ptr) (ops : list Op) :
  let s := finalize R W (run R W this ops new) in
  (forall i a b,
     inCtxs_ (self s) !! i = Some a -> inCtxs_ (self s) !! (i + 1) = Some b ->
     nextIn (heap s) a = Some (Some b)) /\
  (forall a, last (inCtxs_ (self s)) = Some a -> nextIn (heap s) a = Some None) /\
  (forall i a b,
     1 <= i ->
     outCtxs_ (self s) !! i = Some a -> outCtxs_ (self s) !! (i - 1) = Some b ->
     nextOut (heap s) a = Some (Some b)) /\
  (forall a, head (outCtxs_ (self s)) = Some a -> nextOut (heap s) a = Some None).
Proof.
  intros s.
  pose proof (wf_run R W this ops new wf_new) as Hwf.
  set (s0 := run R W this ops new) in *.
  pose proof (wf_finalize R W s0 Hwf) as Hwf'. fold s in Hwf'.
  destruct (finalize_spec R W s0) as (Hh & _ & _ & Hi & Ho & _).
  fold s in Hh, Hi, Ho.
  split_and!.
  - intros i a b Ha Hb. rewrite Hi in Ha, Hb. rewrite Hh, writes_nextIn.
    destruct (wf_lookup_in s0 i a Hwf Ha) as [c ->]. simpl. f_equal.
    apply slotIn_determined.
    + unfold wiring. apply elem_of_app. left. apply elem_of_inWrites.
      by exists i, a, b.
    + intros n' Hn'. unfold wiring in Hn'. apply elem_of_app in Hn' as [Hn'|Hn'].
      * apply elem_of_inWrites in Hn' as (j & c' & m & Hj & Hm & Heq).
        simplify_eq.
        pose proof (NoDup_lookup _ _ _ _ (wf_NoDup_in s0 Hwf) Hj Ha) as ->.
        congruence.
      * apply elem_of_outWrites in Hn' as (j & c' & m & _ & _ & _ & Heq). done.
  - apply Hwf'.
  - intros i a b Hge Ha Hb. rewrite Ho in Ha, Hb. rewrite Hh, writes_nextOut.
    destruct (wf_lookup_out s0 i a Hwf Ha) as [c ->]. simpl. f_equal.
    apply slotOut_determined.
    + unfold wiring. apply elem_of_app. right. apply elem_of_outWrites.
      by exists i, a, b.
    + intros n' Hn'. unfold wiring in Hn'. apply elem_of_app in Hn' as [Hn'|Hn'].
      * apply elem_of_inWrites in Hn' as (j & c' & m & _ & _ & Heq). done.
      * apply elem_of_outWrites in Hn' as (j & c' & m & _ & Hj & Hm & Heq).
        simplify_eq.
        pose proof (NoDup_lookup _ _ _ _ (wf_NoDup_out s0 Hwf) Hj Ha) as ->.
        congruence.
  - apply Hwf'.
Qed.

Lemma finalize_wires_chains_witness :
  nextIn (heap Scenario.s5) 0 = Some (Some 1) /\
  nextIn (heap Scenario.s5) 1 = Some None /\
  nextOut (heap Scenario.s5) 2 = Some (Some 1) /\
  nextOut (heap Scenario.s5) 1 = Some None.
Proof.
  pose proof (finalize_wires_chains Scenario.bytes Scenario.bonk 1000
                [OpAddBack (mkHandler Scenario.Ai 101);
                 OpAddBack (mkHandler Scenario.Bb 102);
                 OpAddBack (mkHandler Scenario.Co 103)]) as H.
  cbv zeta in H. destruct H as (H1 & H2 & H3 & H4).
  split_and!.
  - apply (H1 0 0 1); reflexivity.
  - apply (H2 1). reflexivity.
  - apply (H3 1 2 1); [lia|reflexivity|reflexivity].
  - apply (H4 1). reflexivity.
Defined.

Lemma attach_count_app (ctx : Ptr) (t u : list Event) :
  attach_count ctx (t ++ u) = attach_count ctx t + attach_count ctx u.
Proof. unfold attach_count. by rewrite filter_app, length_app. Qed.

Lemma attach_count_warnings (ctx : Ptr) (t : list Event) :
  Forall (fun e => is_warning e = true) t -> attach_count ctx t = 0.
Proof.
  unfold attach_count. induction 1 as [|e t He _ IH]; [done|].
  rewrite filter_cons_False; [done|]. intros ->. done.
Qed.

Lemma attach_count_absent (ctx : Ptr) (l : list Ptr) :
  ctx ∉ l -> attach_count ctx (attachPipeline <$> l) = 0.
Proof.
  unfold attach_count. induction l as [|x l IH]; intros Hx; [done|].
  rewrite fmap_cons, filter_cons_False.
  - apply IH. intros Hin. apply Hx. by right.
  - intros [= ->]. apply Hx. left.
Qed.

Lemma attach_count_once (ctx : Ptr) (l : list Ptr) :
  NoDup l -> ctx ∈ l -> attach_count ctx (attachPipeline <$> l) = 1.
Proof.
  induction 1 as [|x l Hx Hnd IH]; intros Hin.
  - by apply elem_of_nil in Hin.
  - rewrite fmap_cons. change (attachPipeline x :: (attachPipeline <$> l))
      with ([attachPipeline x] ++ (attachPipeline <$> l)).
    rewrite attach_count_app.
    apply elem_of_cons in Hin as [->|Hin].
    + rewrite attach_count_absent by done.
      unfold attach_count. by rewrite filter_cons_True.
    + rewrite IH by done.
      unfold attach_count. rewrite filter_cons_False; [done|].
      intros [= ->]. done.
Qed.

(** C4: the calls a finalize makes on a reachable pipeline are, after
    warnings at most, [attachPipeline] on the contexts of [ctxs_] from the
    last to the first; each context of [ctxs_] is attached exactly once. *)
Theorem finalize_attaches_back_to_front (R W : Ty) (this : Ptr) (ops : list Op) :
  let s := run R W this ops new in
  exists warnings calls,
    trace (finalize R W s) = trace s ++ warnings ++ calls /\
    Forall (fun e => is_warning e = true) warnings /\
    calls = (attachPipeline <$> reverse (ctxs_ (self s))) /\
    (forall ctx, ctx ∈ ctxs_ (self s) -> attach_count ctx (warnings ++ calls) = 1).
Proof.
  intros s.
  destruct (finalize_spec R W s) as (_ & (ws & Hws & Ht) & _).
  exists ws, (attachPipeline <$> reverse (ctxs_ (self s))).
  split_and!; [done..|].
  intros ctx Hin.
  rewrite attach_count_app, attach_count_warnings by done.
  apply attach_count_once.
  - rewrite reverse_Permutation.
    apply (wf_nodup _ (wf_run R W this ops new wf_new)).
  - by apply elem_of_reverse.
Qed.

Lemma finalize_attaches_back_to_front_witness :
  exists warnings calls,
    trace Scenario.s5 = warnings ++ calls /\
    calls = [attachPipeline 2; attachPipeline 1; attachPipeline 0] /\
    attach_count 1 (warnings ++ calls) = 1.
Proof.
  destruct (finalize_attaches_back_to_front Scenario.bytes Scenario.bonk 1000
              [OpAddBack (mkHandler Scenario.Ai 101);
               OpAddBack (mkHandler Scenario.Bb 102);
               OpAddBack (mkHandler Scenario.Co 103)])
    as (warnings & calls & Ht & _ & Hc & Hn).
  exists warnings, calls. split_and!.
  - exact Ht.
  - exact Hc.
  - apply (Hn 1). apply list_elem_of_lookup. exists 1. reflexivity.
Defined.

(** C7: on any state, a second finalize right after a first leaves
    [front_], [back_] and the whole heap, so every [nextIn] and [nextOut],
    as the first left them. *)
Theorem finalize_idempotent (R W : Ty) (s : State) :
  let s1 := finalize R W s in
  let s2 := finalize R W s1 in
  front_ (self s2) = front_ (self s1) /\
  back_ (self s2) = back_ (self s1) /\
  heap s2 = heap s1 /\
  (forall p, nextIn (heap s2) p = nextIn (heap s1) p /\
             nextOut (heap s2) p = nextOut (heap s1) p).
Proof.
  intros s1 s2.
  destruct (finalize_spec R W s) as (Hh1 & _ & _ & Hi1 & Ho1 & Hf1 & Hb1 & _).
  destruct (finalize_spec R W s1) as (Hh2 & _ & _ & _ & _ & Hf2 & Hb2 & _).
  fold s1 in Hh1, Hi1, Ho1, Hf1, Hb1, Hh2, Hf2, Hb2. fold s2 in Hh2, Hf2, Hb2.
  assert (heap s2 = heap s1) as Hh.
  { rewrite Hh2. unfold wiring. rewrite Hi1, Ho1. fold (wiring (self s)).
    rewrite Hh1. apply writes_idempotent. }
  split_and!.
  - rewrite Hf2, Hf1, Hi1. destruct (inCtxs_ (self s)); [done|].
    rewrite Hh1. apply writes_cast_InboundLink.
  - rewrite Hb2, Hb1, Ho1. destruct (last (outCtxs_ (self s))); [|done].
    rewrite Hh1. apply writes_cast_OutboundLink.
  - exact Hh.
  - intros p. by rewrite Hh.
Qed.

(** C2, as amended: in a pipeline just finalized, [front_] is the first
    inbound context when that context is an inbound link of the pipeline's
    inbound type [R] and null when it is not, [back_] is the last outbound
    context when that context is an outbound link of the pipeline's outbound
    type [W] and null when it is not, and [front_] (respectively [back_]) is
    null when [inCtxs_] (respectively [outCtxs_]) is empty. *)
Theorem finalize_sets_entry_points (R W : Ty) (this : Ptr) (ops : list Op) :
  let s := finalize R W (run R W this ops new) in
  match head (inCtxs_ (self s)) with
  | None => front_ (self s) = None
  | Some c0 =>
      exists c, heap s !! c0 = Some c /\
        front_ (self s)
        = if bool_decide (inboundLinkType (handlerType c) = R)
          then Some c0 else None
  end /\
  match last (outCtxs_ (self s)) with
  | None => back_ (self s) = None
  | Some cn =>
      exists c, heap s !! cn = Some c /\
        back_ (self s)
        = if bool_decide (outboundLinkType (handlerType c) = W)
          then Some cn else None
  end.
Proof.
  intros s.
  pose proof (wf_run R W this ops new wf_new) as Hwf.
  set (s0 := run R W this ops new) in *.
  pose proof (wf_finalize R W s0 Hwf) as Hwf'. fold s in Hwf'.
  destruct (finalize_spec R W s0) as (Hh & _ & _ & Hi & Ho & Hf & Hb & _).
  fold s in Hh, Hi, Ho, Hf, Hb.
  split.
  - destruct (head (inCtxs_ (self s))) as [c0|] eqn:E.
    + rewrite head_lookup in E.
      destruct (wf_lookup_in s 0 c0 Hwf' E) as [c Hc]. exists c. split; [done|].
      assert (isInbound (heap s) c0 = true) as Hdir.
      { apply list_elem_of_lookup_2 in E. rewrite (wf_in s Hwf') in E.
        apply list_elem_of_filter in E as [E _]. by apply Is_true_true. }
      unfold isInbound in Hdir. rewrite Hc in Hdir.
      rewrite Hi in E. rewrite Hf.
      destruct (inCtxs_ (self s0)) as [|c0' l]; simplify_eq/=.
      rewrite <- (writes_cast_InboundLink R (wiring (self s0))), <- Hh.
      unfold dynamic_cast_InboundLink. by rewrite Hc, Hdir.
    + apply head_None in E. by apply (wf_front s Hwf').
  - destruct (last (outCtxs_ (self s))) as [cn|] eqn:E.
    + pose proof E as E'. rewrite last_lookup in E'.
      destruct (wf_lookup_out s _ cn Hwf' E') as [c Hc]. exists c. split; [done|].
      assert (isOutbound (heap s) cn = true) as Hdir.
      { apply list_elem_of_lookup_2 in E'. rewrite (wf_out s Hwf') in E'.
        apply list_elem_of_filter in E' as [E' _]. by apply Is_true_true. }
      unfold isOutbound in Hdir. rewrite Hc in Hdir.
      rewrite Ho in E. rewrite Hb, E.
      rewrite <- (writes_cast_OutboundLink W (wiring (self s0))), <- Hh.
      unfold dynamic_cast_OutboundLink. by rewrite Hc, Hdir.
    + apply last_None in E. by apply (wf_back s Hwf').
Qed.

(** C2, as stated, fails: the [Pipeline<int>] whose only handler reads
    [std::string] has that handler's context first in [inCtxs_], yet the
    cast in finalize leaves [front_] null. *)
Lemma front_not_first_inbound :
  inCtxs_ (self Mismatch.s) !! 0 = Some 0 /\
  front_ (self Mismatch.s) = None /\
  front_ (self Mismatch.s) <> inCtxs_ (self Mismatch.s) !! 0.
Proof. split_and!; [reflexivity|reflexivity|discriminate]. Qed.

(** * Further properties *)

(** ** What the operations leave alone *)

Lemma finalize_self (R W : Ty) (s : State) :
  self (finalize R W s)
  = set_back (back_ (self (finalize R W s)))
      (set_front (front_ (self (finalize R W s))) (self s)).
Proof.
  unfold finalize. rewrite finalize_attach_spec, self_emit.
  destruct (finalize_inbound_spec R s) as (_ & _ & Hs1).
  set (s1 := finalize_inbound R s) in *.
  destruct (finalize_outbound_spec W s1) as (_ & _ & Hs2).
  set (s2 := finalize_outbound W s1) in *.
  destruct (finalize_warn_spec R W s2) as (-> & _).
  rewrite Hs2, Hs1.
  destruct (self s) as [m t fl rb st ow cs ins outs f b]; simpl.
  destruct ins; simpl; destruct (last outs); reflexivity.
Qed.

Lemma add_self (this : Ptr) (handler : Handler) (front : bool) (s : State) :
  let s' := (if front then addFront else addBack) this handler s in
  self s'
  = set_outCtxs (outCtxs_ (self s'))
      (set_inCtxs (inCtxs_ (self s')) (set_ctxs (ctxs_ (self s')) (self s))).
Proof.
  destruct front; simpl; unfold addFront, addBack, make_shared_Context, alloc,
    addHelper; simpl;
    destruct (isInbound _ _); simpl; destruct (isOutbound _ _); simpl;
    destruct (self s); reflexivity.
Qed.

Lemma setOwner_self (handler : Handler) (s : State) :
  snd (setOwner handler s)
  = with_self (set_owner (owner_ (self (snd (setOwner handler s))))) s.
Proof.
  unfold setOwner. destruct (findOwner _ _ _ _); simpl; [done|].
  destruct s as [[] ? ?]; reflexivity.
Qed.

Lemma exec_isStatic (R W : Ty) (this : Ptr) (o : Op) (s : State) :
  isStatic_ (self (exec R W this o s)) = isStatic_ (self s).
Proof.
  destruct o; simpl; try reflexivity.
  - by rewrite (add_self this handler true s).
  - by rewrite (add_self this handler false s).
  - by rewrite finalize_self.
  - by rewrite setOwner_self.
  - unfold deletePipeline. by destruct (manager_ (self s)).
Qed.

Lemma run_isStatic (R W : Ty) (this : Ptr) (ops : list Op) (s : State) :
  isStatic_ (self (run R W this ops s)) = isStatic_ (self s).
Proof.
  revert s. induction ops as [|o ops IH]; intros s; [done|].
  change (run R W this (o :: ops) s) with (run R W this ops (exec R W this o s)).
  by rewrite IH, exec_isStatic.
Qed.

Lemma exec_settings (R W : Ty) (this : Ptr) (o : Op) (s : State) :
  is_setter o = false ->
  manager_ (self (exec R W this o s)) = manager_ (self s) /\
  transport_ (self (exec R W this o s)) = transport_ (self s) /\
  writeFlags_ (self (exec R W this o s)) = writeFlags_ (self s) /\
  readBufferSettings_ (self (exec R W this o s)) = readBufferSettings_ (self s).
Proof.
  destruct o; simpl; try done; intros _.
  - rewrite (add_self this handler true s). repeat split.
  - rewrite (add_self this handler false s). repeat split.
  - rewrite finalize_self. repeat split.
  - rewrite setOwner_self. repeat split.
  - unfold deletePipeline.
    destruct (manager_ (self s)) eqn:E; simpl; rewrite ?E; repeat split.
Qed.

(** X10: assembly, finalize, setOwner and deletePipeline never write the
    manager, the transport, the write flags or the read-buffer settings: a
    history without a setter leaves all four as they were, so a pipeline on
    which none was called reads back no manager, no transport,
    [WriteFlags::NONE] and (2048, 2048). *)
Theorem settings_survive (R W : Ty) (this : Ptr) (ops : list Op) (s : State) :
  Forall (fun o => is_setter o = false) ops ->
  manager_ (self (run R W this ops s)) = manager_ (self s) /\
  getTransport (run R W this ops s) = getTransport s /\
  getWriteFlags (run R W this ops s) = getWriteFlags s /\
  getReadBufferSettings (run R W this ops s) = getReadBufferSettings s /\
  (s = new ->
     getTransport (run R W this ops s) = None /\
     getWriteFlags (run R W this ops s) = WriteFlags_NONE /\
     getReadBufferSettings (run R W this ops s) = (2048%Z, 2048%Z)).
Proof.
  intros Hops.
  assert (manager_ (self (run R W this ops s)) = manager_ (self s) /\
          transport_ (self (run R W this ops s)) = transport_ (self s) /\
          writeFlags_ (self (run R W this ops s)) = writeFlags_ (self s) /\
          readBufferSettings_ (self (run R W this ops s))
          = readBufferSettings_ (self s)) as (Hm & Ht & Hf & Hb).
  { revert s. induction Hops as [|o ops Ho _ IH]; intros s; [done|].
    change (run R W this (o :: ops) s)
      with (run R W this ops (exec R W this o s)).
    destruct (IH (exec R W this o s)) as (-> & -> & -> & ->).
    by apply exec_settings. }
  unfold getTransport, getWriteFlags, getReadBufferSettings.
  split_and!; try done.
  intros ->. by rewrite Ht, Hf, Hb.
Qed.

Lemma settings_survive_witness :
  getReadBufferSettings
    (run Scenario.bytes Scenario.bonk 1000
       [OpAddBack (mkHandler Scenario.Ai 101); OpFinalize;
        OpSetOwner (mkHandler Scenario.Ai 101)]
       (setReadBufferSettings 7 9 new))
  = (7%Z, 9%Z) /\
  getWriteFlags
    (run Scenario.bytes Scenario.bonk 1000
       [OpAddFront (mkHandler Scenario.Bb 102); OpFinalize] new)
  = WriteFlags_NONE.
Proof.
  split.
  - apply (settings_survive Scenario.bytes Scenario.bonk 1000
             [OpAddBack (mkHandler Scenario.Ai 101); OpFinalize;
              OpSetOwner (mkHandler Scenario.Ai 101)]
             (setReadBufferSettings 7 9 new)).
    repeat constructor.
  - apply (settings_survive Scenario.bytes Scenario.bonk 1000
             [OpAddFront (mkHandler Scenario.Bb 102); OpFinalize] new).
    + repeat constructor.
    + reflexivity.
Defined.

(** X3: [Pipeline(bool)] fails its CHECK on [false]; a pipeline constructed
    static stays static through every operation, so its destructor detaches
    nothing whatever was added to it. *)
Theorem static_never_detaches (R W : Ty) (this : Ptr) (ops : list Op) :
  new_static false = CheckFailed (mkState (initial false) [] []) /\
  new_static true = Returns tt (mkState (initial true) [] []) /\
  destroy (run R W this ops (mkState (initial true) [] []))
  = run R W this ops (mkState (initial true) [] []).
Proof.
  split_and!; [reflexivity..|].
  unfold destroy. by rewrite run_isStatic.
Qed.

(** ** Dispatch before finalize *)

Lemma exec_entries_null (R W : Ty) (this : Ptr) (o : Op) (s : State) :
  o <> OpFinalize ->
  front_ (self s) = None -> back_ (self s) = None ->
  front_ (self (exec R W this o s)) = None /\
  back_ (self (exec R W this o s)) = None.
Proof.
  intros Ho Hf Hb. destruct o; simpl; try done.
  - rewrite (add_self this handler true s). simpl. done.
  - rewrite (add_self this handler false s). simpl. done.
  - rewrite setOwner_self. simpl. done.
  - unfold deletePipeline. by destruct (manager_ (self s)).
Qed.

(** X9: the dispatch functions do not check that the pipeline was
    finalized.  Until the first finalize both entry pointers are null,
    however many handlers were added, so [read], [readEOF],
    [readException], [write] and [close] throw and the two transport
    notifications do nothing. *)
Theorem dispatch_before_finalize (R W : Ty) (this : Ptr) (ops : list Op)
    (msg e : nat) :
  Forall (fun o => o <> OpFinalize) ops ->
  let s := run R W this ops new in
  front_ (self s) = None /\ back_ (self s) = None /\
  (forall HR : enabled R,
     read R HR msg s = Throws (NoInboundHandler "read") s /\
     readEOF R HR s = Throws (NoInboundHandler "readEOF") s /\
     readException R HR e s = Throws (NoInboundHandler "readException") s /\
     transportActive R HR s = Returns tt s /\
     transportInactive R HR s = Returns tt s) /\
  (forall HW : enabled W,
     write W HW msg s = Throws (NoOutboundHandler "write") s /\
     close W HW s = Throws (NoOutboundHandler "close") s).
Proof.
  intros Hops s.
  assert (front_ (self s) = None /\ back_ (self s) = None) as [Hf Hb].
  { subst s.
    assert (forall s0, front_ (self s0) = None -> back_ (self s0) = None ->
              front_ (self (run R W this ops s0)) = None /\
              back_ (self (run R W this ops s0)) = None) as H.
    { induction Hops as [|o ops Ho _ IH]; intros s0 Hf Hb; [done|].
      change (run R W this (o :: ops) s0)
        with (run R W this ops (exec R W this o s0)).
      destruct (exec_entries_null R W this o s0 Ho Hf Hb). by apply IH. }
    by apply H. }
  split_and!; [done..| |].
  - intros HR.
    unfold read, readEOF, readException, transportActive, transportInactive.
    rewrite Hf. repeat split.
  - intros HW. unfold write, close. rewrite Hb. repeat split.
Qed.

Lemma dispatch_before_finalize_witness :
  read Scenario.bytes eq_refl 5
    (run Scenario.bytes Scenario.bonk 1000
       [OpAddBack (mkHandler Scenario.Ai 101);
        OpAddBack (mkHandler Scenario.Bb 102)] new)
  = Throws (NoInboundHandler "read")
      (run Scenario.bytes Scenario.bonk 1000
         [OpAddBack (mkHandler Scenario.Ai 101);
          OpAddBack (mkHandler Scenario.Bb 102)] new).
Proof.
  pose proof (dispatch_before_finalize Scenario.bytes Scenario.bonk 1000
                [OpAddBack (mkHandler Scenario.Ai 101);
                 OpAddBack (mkHandler Scenario.Bb 102)] 5 0) as H.
  cbv zeta in H.
  destruct H as (_ & _ & HR & _).
  - repeat constructor; discriminate.
  - apply (HR eq_refl).
Defined.

(** ** setOwner *)

Lemma findOwner_first (handler : Handler) (h : list Context) (l : list Ptr) :
  match findOwner (htype handler) (haddr handler) h l with
  | Some ctx =>
      exists l1 l2, l = l1 ++ ctx :: l2 /\ holds handler h ctx = true /\
                    Forall (fun c => holds handler h c = false) l1
  | None => Forall (fun c => holds handler h c = false) l
  end.
Proof.
  induction l as [|x l IH]; simpl; [by constructor|].
  assert (forall r : option Ptr,
    match r with
    | Some ctx =>
        exists l1 l2, l = l1 ++ ctx :: l2 /\ holds handler h ctx = true /\
                      Forall (fun c => holds handler h c = false) l1
    | None => Forall (fun c => holds handler h c = false) l
    end ->
    holds handler h x = false ->
    match r with
    | Some ctx =>
        exists l1 l2, x :: l = l1 ++ ctx :: l2 /\ holds handler h ctx = true /\
                      Forall (fun c => holds handler h c = false) l1
    | None => Forall (fun c => holds handler h c = false) (x :: l)
    end) as Hskip.
  { intros [ctx|] Hr Hx.
    - destruct Hr as (l1 & l2 & -> & Hc & Hl1).
      exists (x :: l1), l2. split_and!; [done..|by constructor].
    - by constructor. }
  destruct (dynamic_cast_Context (htype handler) h x) as [c|] eqn:E.
  - case_bool_decide as Hc.
    + exists [], l. split_and!; [done| |by constructor].
      unfold holds. rewrite E. by apply bool_decide_eq_true.
    + apply Hskip; [exact IH|].
      unfold holds. rewrite E. by apply bool_decide_eq_false.
  - apply Hskip; [exact IH|]. unfold holds. by rewrite E.
Qed.

(** X1: [setOwner] returns true exactly when some context of [ctxs_] was
    built for the handler's class and holds the handler; it then makes the
    first such context in [ctxs_] the owner and changes nothing else.  When
    it returns false the state, a previous owner included, is untouched. *)
Theorem setOwner_finds_first (handler : Handler) (s : State) :
  if fst (setOwner handler s)
  then exists l1 ctx l2,
         ctxs_ (self s) = l1 ++ ctx :: l2 /\
         holds handler (heap s) ctx = true /\
         Forall (fun c => holds handler (heap s) c = false) l1 /\
         snd (setOwner handler s) = with_self (set_owner (Some ctx)) s
  else snd (setOwner handler s) = s /\
       Forall (fun c => holds handler (heap s) c = false) (ctxs_ (self s)).
Proof.
  unfold setOwner.
  pose proof (findOwner_first handler (heap s) (ctxs_ (self s))) as H.
  destruct (findOwner _ _ _ _) as [ctx|]; simpl.
  - destruct H as (l1 & l2 & Hl & Hc & Hl1). by exists l1, ctx, l2.
  - done.
Qed.

(** ** Teardown of a reachable pipeline *)

Lemma count_fmap_inj (f : Ptr -> Event) `{!Inj (=) (=) f} (ctx : Ptr) (l : list Ptr) :
  NoDup l ->
  length (filter (fun e => e = f ctx) (f <$> l))
  = if bool_decide (ctx ∈ l) then 1 else 0.
Proof.
  induction 1 as [|x l Hx Hnd IH].
  - rewrite bool_decide_false; [done|]. by intros ?%elem_of_nil.
  - rewrite fmap_cons, filter_cons.
    destruct (decide (f x = f ctx)) as [Hfx|Hfx].
    + apply (inj f) in Hfx. subst x. simpl. rewrite IH.
      rewrite (bool_decide_false (ctx ∈ l)) by done.
      rewrite bool_decide_true; [done|]. left.
    + rewrite IH.
      destruct (decide (ctx ∈ l)) as [Hl|Hl].
      * rewrite !bool_decide_true; [done| |done]. by right.
      * rewrite !bool_decide_false; [done| |done].
        intros [->|?]%elem_of_cons; done.
Qed.

#[local] Instance detachPipeline_inj : Inj (=) (=) detachPipeline.
Proof. by intros x y [=]. Qed.

#[local] Instance attachPipeline_inj : Inj (=) (=) attachPipeline.
Proof. by intros x y [=]. Qed.

Lemma owner_in_ctxs_exec (R W : Ty) (this : Ptr) (o : Op) (s : State) :
  (forall c, owner_ (self s) = Some c -> c ∈ ctxs_ (self s)) ->
  forall c, owner_ (self (exec R W this o s)) = Some c ->
            c ∈ ctxs_ (self (exec R W this o s)).
Proof.
  intros Hs c. destruct o; simpl; try apply Hs.
  - destruct (add_spec this handler true s) as (_ & _ & -> & _ & _ & _ & _ & -> & _).
    intros Hc%Hs. apply vec_insert_elem. by right.
  - destruct (add_spec this handler false s) as (_ & _ & -> & _ & _ & _ & _ & -> & _).
    intros Hc%Hs. apply vec_insert_elem. by right.
  - destruct (finalize_spec R W s) as (_ & _ & -> & _ & _ & _ & _ & -> & _).
    apply Hs.
  - unfold setOwner.
    pose proof (findOwner_first handler (heap s) (ctxs_ (self s))) as H.
    destruct (findOwner _ _ _ _) as [ctx|]; simpl; [|apply Hs].
    destruct H as (l1 & l2 & Hl & _). intros [= <-].
    rewrite Hl. apply elem_of_app. right. left.
  - unfold deletePipeline. destruct (manager_ (self s)); apply Hs.
Qed.

Lemma owner_in_ctxs (R W : Ty) (this : Ptr) (ops : list Op) (s : State) :
  (forall c, owner_ (self s) = Some c -> c ∈ ctxs_ (self s)) ->
  forall c, owner_ (self (run R W this ops s)) = Some c ->
            c ∈ ctxs_ (self (run R W this ops s)).
Proof.
  revert s. induction ops as [|o ops IH]; intros s Hs; [done|].
  apply IH. by apply owner_in_ctxs_exec.
Qed.

(** X2: in a pipeline reached from [Pipeline()] the owner, once set, is one
    of the contexts of [ctxs_], and the destructor calls [detachPipeline]
    exactly once on every other context of [ctxs_] and never on the
    owner. *)
Theorem teardown_detaches_each_once (R W : Ty) (this : Ptr) (ops : list Op) :
  let s := run R W this ops new in
  (forall o, owner_ (self s) = Some o -> o ∈ ctxs_ (self s)) /\
  (forall ctx, ctx ∈ ctxs_ (self s) ->
     detach_count ctx (trace (destroy s))
     = detach_count ctx (trace s)
       + (if bool_decide (owner_ (self s) = Some ctx) then 0 else 1)).
Proof.
  intros s. split.
  - apply owner_in_ctxs. done.
  - intros ctx Hin. unfold destroy. subst s. rewrite run_isStatic. simpl.
    set (s := run R W this ops new) in *.
    rewrite detachHandlers_spec, trace_emit. unfold detach_count.
    rewrite filter_app, length_app. f_equal.
    rewrite (count_fmap_inj detachPipeline).
    2:{ apply NoDup_filter, (wf_nodup _ (wf_run R W this ops new wf_new)). }
    destruct (decide (owner_ (self s) = Some ctx)) as [Ho|Ho].
    + rewrite (bool_decide_true _ Ho). rewrite bool_decide_false; [done|].
      intros [Hne _]%list_elem_of_filter. by rewrite Ho in Hne.
    + rewrite (bool_decide_false _ Ho). rewrite bool_decide_true; [done|].
      apply list_elem_of_filter. split; [congruence|done].
Qed.

Lemma teardown_detaches_each_once_witness :
  detach_count 1
    (trace (destroy
              (run Scenario.bytes Scenario.bonk 1000
                 [OpAddBack (mkHandler Scenario.Ai 101);
                  OpAddBack (mkHandler Scenario.Bb 102);
                  OpSetOwner (mkHandler Scenario.Ai 101)] new)))
  = 1.
Proof.
  pose proof (teardown_detaches_each_once Scenario.bytes Scenario.bonk 1000
                [OpAddBack (mkHandler Scenario.Ai 101);
                 OpAddBack (mkHandler Scenario.Bb 102);
                 OpSetOwner (mkHandler Scenario.Ai 101)]) as H.
  cbv zeta in H. destruct H as [_ H].
  apply (H 1). apply list_elem_of_lookup. exists 1. reflexivity.
Defined.

(** ** Retrieving handlers *)

Lemma getHandler_Returns (T : HandlerType) (i : Z) (s s' : State) (a : Ptr) :
  getHandler T i s = Returns a s' <->
  s' = s /\ (0 <= i)%Z /\
  exists p c, ctxs_ (self s) !! Z.to_nat i = Some p /\ heap s !! p = Some c /\
              handlerType c = T /\ handler_ c = a.
Proof.
  unfold getHandler, dynamic_cast_Context. split.
  - case_bool_decide as Hi; [|done].
    destruct (ctxs_ (self s) !! Z.to_nat i) as [p|] eqn:Ep; [|done].
    destruct (heap s !! p) as [c|] eqn:Ec; [|done].
    case_bool_decide as HT; [|done].
    intros [= <- <-]. split_and!; [done..|]. by exists p, c.
  - intros (-> & Hi & p & c & Hp & Hc & HT & Ha).
    rewrite bool_decide_true by done. rewrite Hp, Hc.
    rewrite bool_decide_true by done. by rewrite Ha.
Qed.

(** X4: a handler just added is retrievable under its own class, at
    position 0 after [addFront] and at the last position after [addBack];
    a handler retrievable at position [i] before is retrievable at [i + 1]
    after an [addFront] and still at [i] after an [addBack]. *)
Theorem getHandler_after_add (this : Ptr) (handler : Handler) (s : State)
    (T : HandlerType) (i : Z) (a : Ptr) :
  getHandler (htype handler) 0 (addFront this handler s)
  = Returns (haddr handler) (addFront this handler s) /\
  getHandler (htype handler) (Z.of_nat (length (ctxs_ (self s))))
    (addBack this handler s)
  = Returns (haddr handler) (addBack this handler s) /\
  (getHandler T i s = Returns a s ->
   getHandler T (i + 1) (addFront this handler s)
   = Returns a (addFront this handler s) /\
   getHandler T i (addBack this handler s)
   = Returns a (addBack this handler s)).
Proof.
  destruct (add_spec this handler true s) as (HhF & _ & HcF & _).
  destruct (add_spec this handler false s) as (HhB & _ & HcB & _).
  simpl in HhF, HcF, HhB, HcB.
  split_and!.
  - apply getHandler_Returns. split_and!; [done..|].
    exists (length (heap s)), (newContext this handler).
    rewrite HcF, HhF. split_and!; [done| |done..].
    by apply list_lookup_middle.
  - apply getHandler_Returns. split_and!; [done|lia|].
    exists (length (heap s)), (newContext this handler).
    rewrite HcB, HhB, Nat2Z.id. split_and!; [| |done..].
    + by apply list_lookup_middle.
    + by apply list_lookup_middle.
  - intros (_ & Hi & p & c & Hp & Hc & HT & Ha)%getHandler_Returns.
    split; apply getHandler_Returns; (split_and!; [done|lia|]);
      exists p, c.
    + rewrite HcF, HhF. split_and!; [|by apply lookup_app_l_Some|done..].
      replace (Z.to_nat (i + 1)) with (S (Z.to_nat i)) by lia. done.
    + rewrite HcB, HhB. split_and!; [|by apply lookup_app_l_Some|done..].
      by apply lookup_app_l_Some.
Qed.

Lemma getHandler_after_add_witness :
  getHandler Scenario.Ai 1 (addFront 1000 (mkHandler Scenario.Co 104) Scenario.s5)
  = Returns 101 (addFront 1000 (mkHandler Scenario.Co 104) Scenario.s5) /\
  getHandler Scenario.Ai 0 (addBack 1000 (mkHandler Scenario.Co 104) Scenario.s5)
  = Returns 101 (addBack 1000 (mkHandler Scenario.Co 104) Scenario.s5).
Proof.
  apply (getHandler_after_add 1000 (mkHandler Scenario.Co 104) Scenario.s5
           Scenario.Ai 0 101).
  reflexivity.
Defined.

Lemma getHandler_newContext (this : Ptr) (handler : Handler) (i : nat)
    (p : Ptr) (s : State) :
  ctxs_ (self s) !! i = Some p ->
  heap s !! p = Some (newContext this handler) ->
  getHandler (htype handler) (Z.of_nat i) s = Returns (haddr handler) s.
Proof.
  intros Hp Hc. apply getHandler_Returns. split_and!; [done|lia|].
  exists p, (newContext this handler). by rewrite Nat2Z.id.
Qed.

Lemma addBack_chain_state (this : Ptr) (hs : list Handler) :
  let s := for_each hs (addBack this) new in
  ctxs_ (self s) = seq 0 (length hs) /\
  heap s = newContext this <$> hs /\
  front_ (self s) = None /\ back_ (self s) = None /\ trace s = [].
Proof.
  induction hs as [|h hs IH] using rev_ind; [done|].
  rewrite for_each_app. simpl in *.
  change (for_each [h] (addBack this) (for_each hs (addBack this) new))
    with (addBack this h (for_each hs (addBack this) new)).
  destruct IH as (Hc & Hh & Hf & Hb & Ht).
  destruct (add_spec this h false (for_each hs (addBack this) new))
    as (Hh' & Ht' & Hc' & _ & _ & Hf' & Hb' & _).
  simpl in Hh', Ht', Hc', Hf', Hb'.
  rewrite Hh', Ht', Hc', Hf', Hb', Hc, Hh, length_app, length_fmap, fmap_app.
  simpl. rewrite Nat.add_1_r, seq_S. done.
Qed.

Lemma addFront_chain_state (this : Ptr) (hs : list Handler) :
  let s := for_each hs (addFront this) new in
  ctxs_ (self s) = reverse (seq 0 (length hs)) /\
  heap s = newContext this <$> hs.
Proof.
  induction hs as [|h hs IH] using rev_ind; [done|].
  rewrite for_each_app. simpl in *.
  change (for_each [h] (addFront this) (for_each hs (addFront this) new))
    with (addFront this h (for_each hs (addFront this) new)).
  destruct IH as (Hc & Hh).
  destruct (add_spec this h true (for_each hs (addFront this) new))
    as (Hh' & _ & Hc' & _).
  simpl in Hh', Hc'.
  rewrite Hh', Hc', Hc, Hh, length_app, length_fmap, fmap_app.
  simpl. rewrite Nat.add_1_r, seq_S, reverse_snoc. done.
Qed.

(** X5: assembling a fresh pipeline by [addBack] alone puts the handlers at
    the positions of their insertion order, and by [addFront] alone at the
    reverse positions: [getHandler] returns the [i]-th handler added at
    position [i], respectively at position [n - 1 - i] of [n]. *)
Theorem chain_positions (this : Ptr) (hs : list Handler) :
  ctxs_ (self (for_each hs (addBack this) new)) = seq 0 (length hs) /\
  ctxs_ (self (for_each hs (addFront this) new)) = reverse (seq 0 (length hs)) /\
  (forall i h, hs !! i = Some h ->
     getHandler (htype h) (Z.of_nat i) (for_each hs (addBack this) new)
     = Returns (haddr h) (for_each hs (addBack this) new) /\
     getHandler (htype h) (Z.of_nat (length hs - 1 - i))
       (for_each hs (addFront this) new)
     = Returns (haddr h) (for_each hs (addFront this) new)).
Proof.
  destruct (addBack_chain_state this hs) as (HcB & HhB & _).
  destruct (addFront_chain_state this hs) as (HcF & HhF).
  split_and!; [done..|].
  intros i h Hi. pose proof (lookup_lt_Some _ _ _ Hi) as Hlt.
  split; apply (getHandler_newContext this h _ i).
  - rewrite HcB. by apply lookup_seq_lt.
  - rewrite HhB, list_lookup_fmap, Hi. done.
  - rewrite HcF, reverse_lookup by (rewrite length_seq; lia).
    rewrite length_seq.
    replace (length hs - S (length hs - 1 - i)) with i by lia.
    by apply lookup_seq_lt.
  - rewrite HhF, list_lookup_fmap, Hi. done.
Qed.

Lemma chain_positions_witness :
  getHandler Scenario.Bb 1
    (for_each [mkHandler Scenario.Ai 101; mkHandler Scenario.Bb 102;
               mkHandler Scenario.Co 103] (addFront 1000) new)
  = Returns 102
      (for_each [mkHandler Scenario.Ai 101; mkHandler Scenario.Bb 102;
                 mkHandler Scenario.Co 103] (addFront 1000) new) /\
  getHandler Scenario.Co 2
    (for_each [mkHandler Scenario.Ai 101; mkHandler Scenario.Bb 102;
               mkHandler Scenario.Co 103] (addBack 1000) new)
  = Returns 103
      (for_each [mkHandler Scenario.Ai 101; mkHandler Scenario.Bb 102;
                 mkHandler Scenario.Co 103] (addBack 1000) new).
Proof.
  pose proof (chain_positions 1000
                [mkHandler Scenario.Ai 101; mkHandler Scenario.Bb 102;
                 mkHandler Scenario.Co 103]) as (_ & _ & H).
  split.
  - apply (H 1 (mkHandler Scenario.Bb 102)). reflexivity.
  - apply (H 2 (mkHandler Scenario.Co 103)). reflexivity.
Defined.

(** ** What finalize leaves alone, and what it logs *)

Lemma writes_static (ws : list Write) (h : list Context) (p : Ptr) :
  (fun c => (pipeline_ c, handlerType c, handler_ c)) <$> foldl applyW h ws !! p
  = (fun c => (pipeline_ c, handlerType c, handler_ c)) <$> h !! p.
Proof.
  rewrite foldl_applyW_lookup.
  destruct (h !! p) as [c|]; simpl; [|done]. by rewrite foldl_ctxW.
Qed.

Lemma getHandler_finalize (R W : Ty) (T : HandlerType) (i : Z) (a : Ptr) (s : State) :
  getHandler T i (finalize R W s) = Returns a (finalize R W s) <->
  getHandler T i s = Returns a s.
Proof.
  destruct (finalize_spec R W s) as (Hh & _ & Hc & _).
  rewrite !getHandler_Returns, Hc, Hh.
  split; intros (_ & Hi & p & c & Hp & Hl & HT & Ha); (split_and!; [done..|]);
    exists p.
  - pose proof (writes_static (wiring (self s)) (heap s) p) as Hst.
    rewrite Hl in Hst. destruct (heap s !! p) as [c'|]; simplify_eq/=.
    by exists c'.
  - pose proof (writes_static (wiring (self s)) (heap s) p) as Hst.
    rewrite Hl in Hst.
    destruct (foldl applyW (heap s) (wiring (self s)) !! p) as [c'|];
      simplify_eq/=.
    by exists c'.
Qed.

(** X11: finalize only assigns [front_], [back_] and neighbour slots.  On
    any state it leaves the three vectors, the owner, the manager, the
    transport, both settings and [isStatic_] as they were, allocates and
    frees nothing, and keeps each context's pipeline, handler class and
    handler, so [getHandler] answers as before. *)
Theorem finalize_frame (R W : Ty) (s : State) :
  self (finalize R W s)
  = set_back (back_ (self (finalize R W s)))
      (set_front (front_ (self (finalize R W s))) (self s)) /\
  length (heap (finalize R W s)) = length (heap s) /\
  (forall p,
     (fun c => (pipeline_ c, handlerType c, handler_ c)) <$> heap (finalize R W s) !! p
     = (fun c => (pipeline_ c, handlerType c, handler_ c)) <$> heap s !! p) /\
  (forall T i a,
     getHandler T i (finalize R W s) = Returns a (finalize R W s) <->
     getHandler T i s = Returns a s).
Proof.
  destruct (finalize_spec R W s) as (Hh & _).
  split_and!.
  - apply finalize_self.
  - rewrite Hh. apply foldl_applyW_length.
  - intros p. rewrite Hh. apply writes_static.
  - intros T i a. apply getHandler_finalize.
Qed.

Lemma finalize_frame_witness :
  getHandler Scenario.Bb 1 Scenario.s5 = Returns 102 Scenario.s5.
Proof.
  pose proof (finalize_frame Scenario.bytes Scenario.bonk
                (addBack 1000 (mkHandler Scenario.Co 103)
                   (addBack 1000 (mkHandler Scenario.Bb 102)
                      (addBack 1000 (mkHandler Scenario.Ai 101) new))))
    as (_ & _ & _ & H).
  unfold Scenario.s5. apply (H Scenario.Bb 1%Z 102). vm_compute. reflexivity.
Defined.

Lemma finalize_warn_trace (R W : Ty) (s : State) :
  trace (finalize_warn R W s)
  = trace s ++ warnings R W (front_ (self s)) (back_ (self s)).
Proof.
  unfold finalize_warn, warnings, logWarningIfNotNothing, is_same,
    noInboundWarning, noOutboundWarning.
  destruct s as [p h t]. simpl.
  destruct (front_ p); simpl; destruct R; simpl;
    destruct (back_ p); simpl; destruct W; simpl;
    rewrite ?app_nil_r, <- ?app_assoc; reflexivity.
Qed.

Lemma finalize_trace (R W : Ty) (s : State) :
  trace (finalize R W s)
  = trace s
    ++ warnings R W (front_ (self (finalize R W s))) (back_ (self (finalize R W s)))
    ++ (attachPipeline <$> reverse (ctxs_ (self s))).
Proof.
  destruct (finalize_spec R W s) as (_ & _ & Hc & _).
  unfold finalize in *. rewrite finalize_attach_spec in *.
  rewrite trace_emit, !self_emit in *. rewrite Hc.
  rewrite finalize_warn_trace.
  destruct (finalize_warn_spec R W (finalize_outbound W (finalize_inbound R s)))
    as (-> & _).
  destruct (finalize_outbound_spec W (finalize_inbound R s)) as (_ & -> & _).
  destruct (finalize_inbound_spec R s) as (_ & -> & _).
  by rewrite <- app_assoc.
Qed.

Lemma warnings_inbound (R W : Ty) (front back : option Ptr) :
  noInboundWarning ∈ warnings R W front back <-> front = None /\ enabled R.
Proof.
  unfold warnings, enabled, noInboundWarning, noOutboundWarning.
  destruct front, back, (is_same R Nothing), (is_same W Nothing); simpl;
    rewrite ?elem_of_cons, ?elem_of_nil; intuition (try discriminate; auto).
Qed.

Lemma warnings_outbound (R W : Ty) (front back : option Ptr) :
  noOutboundWarning ∈ warnings R W front back <-> back = None /\ enabled W.
Proof.
  unfold warnings, enabled, noInboundWarning, noOutboundWarning.
  destruct front, back, (is_same R Nothing), (is_same W Nothing); simpl;
    rewrite ?elem_of_cons, ?elem_of_nil; intuition (try discriminate; auto).
Qed.

(** X7: what a finalize appends to the trace is its warnings followed by
    the [attachPipeline] calls.  Among the warnings, the inbound one is
    there exactly when [front_] ends up null and [R] is not [Nothing], the
    outbound one exactly when [back_] ends up null and [W] is not
    [Nothing]. *)
Theorem finalize_warns_when_null (R W : Ty) (s : State) :
  exists ws,
    trace (finalize R W s)
    = trace s ++ ws ++ (attachPipeline <$> reverse (ctxs_ (self s))) /\
    Forall (fun e => is_warning e = true) ws /\
    (noInboundWarning ∈ ws <->
     front_ (self (finalize R W s)) = None /\ enabled R) /\
    (noOutboundWarning ∈ ws <->
     back_ (self (finalize R W s)) = None /\ enabled W).
Proof.
  exists (warnings R W (front_ (self (finalize R W s)))
            (back_ (self (finalize R W s)))).
  split_and!.
  - apply finalize_trace.
  - unfold warnings.
    destruct (_ && _), (_ && _); simpl; repeat constructor.
  - apply warnings_inbound.
  - apply warnings_outbound.
Qed.

(** ** Where dispatch enters a finalized pipeline *)

Lemma finalized_entries (R W : Ty) (s0 : State) :
  wf s0 ->
  let s := finalize R W s0 in
  front_ (self s) = head (inCtxs_ (self s)) ≫= dynamic_cast_InboundLink R (heap s) /\
  back_ (self s) = last (outCtxs_ (self s)) ≫= dynamic_cast_OutboundLink W (heap s).
Proof.
  intros Hwf s.
  destruct (finalize_spec R W s0) as (Hh & _ & _ & Hi & Ho & Hf & Hb & _).
  fold s in Hh, Hi, Ho, Hf, Hb.
  rewrite Hi, Ho, Hf, Hb, Hh. split.
  - destruct (inCtxs_ (self s0)) eqn:E; simpl.
    + by apply (wf_front s0 Hwf).
    + by rewrite writes_cast_InboundLink.
  - destruct (last (outCtxs_ (self s0))) eqn:E; simpl.
    + by rewrite writes_cast_OutboundLink.
    + apply last_None in E. by apply (wf_back s0 Hwf).
Qed.

Lemma finalized_inbound_dir (R W : Ty) (s0 : State) (c0 : Ptr) (c : Context) :
  wf s0 ->
  c0 ∈ inCtxs_ (self (finalize R W s0)) ->
  heap (finalize R W s0) !! c0 = Some c ->
  inboundDir (dir (handlerType c)) = true.
Proof.
  intros Hwf Hin Hc. pose proof (wf_finalize R W s0 Hwf) as Hwf'.
  rewrite (wf_in _ Hwf') in Hin. apply list_elem_of_filter in Hin as [Hd _].
  unfold isInbound in Hd. rewrite Hc in Hd. by apply Is_true_true.
Qed.

Lemma finalized_outbound_dir (R W : Ty) (s0 : State) (cn : Ptr) (c : Context) :
  wf s0 ->
  cn ∈ outCtxs_ (self (finalize R W s0)) ->
  heap (finalize R W s0) !! cn = Some c ->
  outboundDir (dir (handlerType c)) = true.
Proof.
  intros Hwf Hin Hc. pose proof (wf_finalize R W s0 Hwf) as Hwf'.
  rewrite (wf_out _ Hwf') in Hin. apply list_elem_of_filter in Hin as [Hd _].
  unfold isOutbound in Hd. rewrite Hc in Hd. by apply Is_true_true.
Qed.

(** X8: in a pipeline just finalized whose first inbound context is an
    inbound link of type [R], the five inbound functions each make exactly
    one call, on that context, and change nothing else; likewise [write]
    and [close] on the last outbound context when it is an outbound link of
    type [W]. *)
Theorem dispatch_enters_at_the_ends (R W : Ty) (this : Ptr) (ops : list Op)
    (msg e : nat) :
  let s := finalize R W (run R W this ops new) in
  (forall c0 c (HR : enabled R),
     head (inCtxs_ (self s)) = Some c0 -> heap s !! c0 = Some c ->
     inboundLinkType (handlerType c) = R ->
     read R HR msg s = Returns tt (emit [link_read c0 msg] s) /\
     readEOF R HR s = Returns tt (emit [link_readEOF c0] s) /\
     readException R HR e s = Returns tt (emit [link_readException c0 e] s) /\
     transportActive R HR s = Returns tt (emit [link_transportActive c0] s) /\
     transportInactive R HR s = Returns tt (emit [link_transportInactive c0] s)) /\
  (forall cn c (HW : enabled W),
     last (outCtxs_ (self s)) = Some cn -> heap s !! cn = Some c ->
     outboundLinkType (handlerType c) = W ->
     write W HW msg s = Returns tt (emit [link_write cn msg] s) /\
     close W HW s = Returns tt (emit [link_close cn] s)).
Proof.
  intros s.
  pose proof (wf_run R W this ops new wf_new) as Hwf.
  destruct (finalized_entries R W _ Hwf) as [Hf Hb]. fold s in Hf, Hb.
  split.
  - intros c0 c HR Hh Hc HT.
    assert (front_ (self s) = Some c0) as Hfront.
    { rewrite Hf, Hh. simpl. unfold dynamic_cast_InboundLink. rewrite Hc.
      rewrite (finalized_inbound_dir R W _ c0 c Hwf); [|by apply head_Some_elem_of|done].
      by rewrite bool_decide_true. }
    unfold read, readEOF, readException, transportActive, transportInactive.
    rewrite Hfront. repeat split.
  - intros cn c HW Hl Hc HT.
    assert (back_ (self s) = Some cn) as Hback.
    { rewrite Hb, Hl. simpl. unfold dynamic_cast_OutboundLink. rewrite Hc.
      rewrite (finalized_outbound_dir R W _ cn c Hwf); [|by apply last_Some_elem_of|done].
      by rewrite bool_decide_true. }
    unfold write, close. rewrite Hback. repeat split.
Qed.

Lemma dispatch_enters_at_the_ends_witness :
  read Scenario.bytes eq_refl 7 Scenario.s5
  = Returns tt (emit [link_read 0 7] Scenario.s5) /\
  write Scenario.bonk eq_refl 8 Scenario.s5
  = Returns tt (emit [link_write 2 8] Scenario.s5).
Proof.
  pose proof (dispatch_enters_at_the_ends Scenario.bytes Scenario.bonk 1000
                [OpAddBack (mkHandler Scenario.Ai 101);
                 OpAddBack (mkHandler Scenario.Bb 102);
                 OpAddBack (mkHandler Scenario.Co 103)] 7 0) as H.
  pose proof (dispatch_enters_at_the_ends Scenario.bytes Scenario.bonk 1000
                [OpAddBack (mkHandler Scenario.Ai 101);
                 OpAddBack (mkHandler Scenario.Bb 102);
                 OpAddBack (mkHandler Scenario.Co 103)] 8 0) as H'.
  cbv zeta in H, H'. destruct H as [HI _]. destruct H' as [_ HO].
  split.
  - apply (HI 0 (mkContext 1000 Scenario.Ai 101 (Some 1) None) eq_refl);
      reflexivity.
  - apply (HO 2 (mkContext 1000 Scenario.Co 103 None (Some 1)) eq_refl);
      reflexivity.
Defined.

(** X16: when the first inbound context of a pipeline just finalized is not
    an inbound link of type [R], [front_] is null: finalize logs the
    no-inbound-handler warning and [read], [readEOF] and [readException]
    throw although [inCtxs_] is not empty; likewise for the last outbound
    context, [W], [write] and [close]. *)
Theorem mismatched_ends_reject (R W : Ty) (this : Ptr) (ops : list Op)
    (msg e : nat) :
  let s0 := run R W this ops new in
  let s := finalize R W s0 in
  (forall c0 c (HR : enabled R),
     head (inCtxs_ (self s)) = Some c0 -> heap s !! c0 = Some c ->
     inboundLinkType (handlerType c) <> R ->
     front_ (self s) = None /\
     noInboundWarning ∈ trace s /\
     read R HR msg s = Throws (NoInboundHandler "read") s /\
     readEOF R HR s = Throws (NoInboundHandler "readEOF") s /\
     readException R HR e s = Throws (NoInboundHandler "readException") s) /\
  (forall cn c (HW : enabled W),
     last (outCtxs_ (self s)) = Some cn -> heap s !! cn = Some c ->
     outboundLinkType (handlerType c) <> W ->
     back_ (self s) = None /\
     noOutboundWarning ∈ trace s /\
     write W HW msg s = Throws (NoOutboundHandler "write") s /\
     close W HW s = Throws (NoOutboundHandler "close") s).
Proof.
  intros s0 s.
  pose proof (wf_run R W this ops new wf_new) as Hwf. fold s0 in Hwf.
  destruct (finalized_entries R W _ Hwf) as [Hf Hb]. fold s in Hf, Hb.
  pose proof (finalize_trace R W s0) as Ht. fold s in Ht.
  split.
  - intros c0 c HR Hh Hc HT.
    assert (front_ (self s) = None) as Hfront.
    { rewrite Hf, Hh. simpl. unfold dynamic_cast_InboundLink. rewrite Hc.
      rewrite bool_decide_false by done. by rewrite andb_false_r. }
    split_and!; [done| |unfold read, readEOF, readException; by rewrite Hfront..].
    rewrite Ht. apply elem_of_app. right. apply elem_of_app. left.
    by apply warnings_inbound.
  - intros cn c HW Hl Hc HT.
    assert (back_ (self s) = None) as Hback.
    { rewrite Hb, Hl. simpl. unfold dynamic_cast_OutboundLink. rewrite Hc.
      rewrite bool_decide_false by done. by rewrite andb_false_r. }
    split_and!; [done| |unfold write, close; by rewrite Hback..].
    rewrite Ht. apply elem_of_app. right. apply elem_of_app. left.
    by apply warnings_outbound.
Qed.

Lemma mismatched_ends_reject_witness :
  front_ (self Mismatch.s) = None /\
  noInboundWarning ∈ trace Mismatch.s /\
  read Mismatch.int eq_refl 3 Mismatch.s
  = Throws (NoInboundHandler "read") Mismatch.s.
Proof.
  pose proof (mismatched_ends_reject Mismatch.int Nothing 1000
                [OpAddBack (mkHandler Mismatch.StringHandler 101)] 3 0) as H.
  cbv zeta in H. destruct H as [H _].
  destruct (H 0 (mkContext 1000 Mismatch.StringHandler 101 None None) eq_refl)
    as (Hf & Hw & Hr & _).
  - reflexivity.
  - reflexivity.
  - discriminate.
  - split_and!; [exact Hf|exact Hw|exact Hr].
Defined.

(** ** Finalizing again *)

Lemma attach_count_finalize (R W : Ty) (ctx : Ptr) (s : State) :
  wf s ->
  attach_count ctx (trace (finalize R W s))
  = attach_count ctx (trace s)
    + (if bool_decide (ctx ∈ ctxs_ (self s)) then 1 else 0).
Proof.
  intros Hwf.
  destruct (finalize_spec R W s) as (_ & (ws & Hws & ->) & _).
  rewrite !attach_count_app, (attach_count_warnings ctx ws Hws).
  simpl. f_equal. unfold attach_count.
  rewrite (count_fmap_inj attachPipeline).
  - destruct (decide (ctx ∈ ctxs_ (self s))) as [Hin|Hin].
    + rewrite !bool_decide_true; [done..|]. by apply elem_of_reverse.
    + rewrite !bool_decide_false; [done..|]. by rewrite elem_of_reverse.
  - rewrite reverse_Permutation. apply (wf_nodup _ Hwf).
Qed.

(** X12: finalize attaches every context of [ctxs_] each time it runs,
    attached before or not.  After finalize, one more insertion and a
    second finalize, each context present at the first finalize has
    received two [attachPipeline] calls and the one inserted since has
    received one. *)
Theorem refinalize_attaches_again (R W : Ty) (this : Ptr) (ops : list Op)
    (handler : Handler) (front : bool) :
  let s0 := run R W this ops new in
  let s' := finalize R W ((if front then addFront else addBack) this handler
                            (finalize R W s0)) in
  (forall ctx, ctx ∈ ctxs_ (self s0) ->
     attach_count ctx (trace s') = attach_count ctx (trace s0) + 2) /\
  attach_count (length (heap s0)) (trace s')
  = attach_count (length (heap s0)) (trace s0) + 1.
Proof.
  intros s0 s'.
  pose proof (wf_run R W this ops new wf_new) as Hwf0. fold s0 in Hwf0.
  pose proof (wf_finalize R W s0 Hwf0) as Hwf1.
  pose proof (wf_add this handler front _ Hwf1) as Hwf2.
  destruct (finalize_spec R W s0) as (Hh1 & _ & Hc1 & _).
  destruct (add_spec this handler front (finalize R W s0))
    as (_ & Ht2 & Hc2 & _).
  simpl in Ht2, Hc2.
  assert (length (heap (finalize R W s0)) = length (heap s0)) as Hlen.
  { rewrite Hh1. apply foldl_applyW_length. }
  rewrite Hlen, Hc1 in Hc2.
  assert (length (heap s0) ∉ ctxs_ (self s0)) as Hfresh.
  { intros Hin%(wf_valid _ Hwf0). lia. }
  subst s'. split.
  - intros ctx Hin.
    rewrite (attach_count_finalize R W ctx _ Hwf2), Ht2, Hc2.
    rewrite (attach_count_finalize R W ctx _ Hwf0).
    rewrite (bool_decide_true _ Hin).
    rewrite bool_decide_true by (apply vec_insert_elem; by right). lia.
  - rewrite (attach_count_finalize R W _ _ Hwf2), Ht2, Hc2.
    rewrite (attach_count_finalize R W _ _ Hwf0).
    rewrite (bool_decide_false _ Hfresh).
    rewrite bool_decide_true by (apply vec_insert_elem; by left). lia.
Qed.

Lemma refinalize_attaches_again_witness :
  attach_count 0
    (trace (finalize Scenario.bytes Scenario.bonk
              (addFront 1000 (mkHandler Scenario.Bb 102)
                 (finalize Scenario.bytes Scenario.bonk
                    (addBack 1000 (mkHandler Scenario.Ai 101) new)))))
  = 2.
Proof.
  pose proof (refinalize_attaches_again Scenario.bytes Scenario.bonk 1000
                [OpAddBack (mkHandler Scenario.Ai 101)]
                (mkHandler Scenario.Bb 102) true) as H.
  cbv zeta in H. destruct H as [H _].
  apply (H 0). apply list_elem_of_lookup. exists 0. reflexivity.
Defined.

(** ** The contexts a pipeline owns *)

Lemma owned_exec (R W : Ty) (this : Ptr) (o : Op) (s : State) :
  Permutation (ctxs_ (self s)) (seq 0 (length (heap s))) ->
  (forall p c, heap s !! p = Some c -> pipeline_ c = this) ->
  Permutation (ctxs_ (self (exec R W this o s)))
    (seq 0 (length (heap (exec R W this o s)))) /\
  (forall p c, heap (exec R W this o s) !! p = Some c -> pipeline_ c = this).
Proof.
  intros Hperm Hback.
  assert (forall (front : bool) (handler : Handler),
    let s' := (if front then addFront else addBack) this handler s in
    Permutation (ctxs_ (self s')) (seq 0 (length (heap s'))) /\
    (forall p c, heap s' !! p = Some c -> pipeline_ c = this)) as Hadd.
  { intros front handler s'.
    destruct (add_spec this handler front s) as (Hh & _ & Hc & _).
    fold s' in Hh, Hc. rewrite Hh, Hc, length_app. simpl.
    rewrite Nat.add_1_r, seq_S. simpl. split.
    - destruct front; simpl.
      + rewrite Hperm. apply Permutation_cons_append.
      + by rewrite Hperm.
    - intros p c [Hp|[_ Hp]]%lookup_app_Some; [by eapply Hback|].
      apply list_lookup_singleton_Some in Hp as [_ <-]. done. }
  destruct o; simpl; try done.
  - apply (Hadd true).
  - apply (Hadd false).
  - destruct (finalize_spec R W s) as (Hh & _ & Hcs & _).
    rewrite Hcs, Hh, foldl_applyW_length. split; [done|].
    intros p c Hc. pose proof (writes_static (wiring (self s)) (heap s) p) as Hst.
    rewrite Hc in Hst.
    destruct (heap s !! p) as [c'|] eqn:E; [|done].
    simpl in Hst. injection Hst as Hpl _ _. rewrite Hpl. by eapply Hback.
  - rewrite setOwner_self. done.
  - unfold deletePipeline. by destruct (manager_ (self s)).
Qed.

(** X13: every context a reachable pipeline has allocated is in [ctxs_],
    exactly once, and nothing else is: [ctxs_] is a permutation of the
    addresses of the heap.  Each of these contexts points back to the
    pipeline that built it. *)
Theorem contexts_owned (R W : Ty) (this : Ptr) (ops : list Op) :
  let s := run R W this ops new in
  Permutation (ctxs_ (self s)) (seq 0 (length (heap s))) /\
  length (ctxs_ (self s)) = length (heap s) /\
  (forall p c, heap s !! p = Some c -> pipeline_ c = this).
Proof.
  intros s.
  assert (forall s0,
    Permutation (ctxs_ (self s0)) (seq 0 (length (heap s0))) ->
    (forall p c, heap s0 !! p = Some c -> pipeline_ c = this) ->
    Permutation (ctxs_ (self (run R W this ops s0)))
      (seq 0 (length (heap (run R W this ops s0)))) /\
    (forall p c, heap (run R W this ops s0) !! p = Some c -> pipeline_ c = this))
    as H.
  { induction ops as [|o ops IH]; intros s0 Hp Hb; [done|].
    change (run R W this (o :: ops) s0)
      with (run R W this ops (exec R W this o s0)).
    destruct (owned_exec R W this o s0 Hp Hb). by apply IH. }
  destruct (H new) as [Hp Hb]; [done..|]. fold s in Hp, Hb.
  split_and!; [done| |done].
  by rewrite Hp, length_seq.
Qed.

Lemma contexts_owned_witness :
  pipeline_ (mkContext 1000 Scenario.Bb 102 None None) = 1000.
Proof.
  pose proof (contexts_owned Scenario.bytes Scenario.bonk 1000
                [OpAddBack (mkHandler Scenario.Ai 101);
                 OpAddBack (mkHandler Scenario.Bb 102)]) as H.
  cbv zeta in H. destruct H as (_ & _ & H).
  apply (H 1). reflexivity.
Defined.

(** ** The two chains, followed link by link *)

Lemma wired_in (R W : Ty) (s0 : State) :
  wf s0 ->
  let s := finalize R W s0 in
  forall i a, inCtxs_ (self s) !! i = Some a ->
              nextIn (heap s) a = Some (inCtxs_ (self s) !! (i + 1)).
Proof.
  intros Hwf s i a Ha.
  pose proof (wf_finalize R W s0 Hwf) as Hwf'. fold s in Hwf'.
  destruct (finalize_spec R W s0) as (Hh & _ & _ & Hi & _). fold s in Hh, Hi.
  destruct (inCtxs_ (self s) !! (i + 1)) as [b|] eqn:Eb.
  - rewrite Hi in Ha, Eb. rewrite Hh, writes_nextIn.
    destruct (wf_lookup_in s0 i a Hwf Ha) as [c ->]. simpl. f_equal.
    apply slotIn_determined.
    + unfold wiring. apply elem_of_app. left. apply elem_of_inWrites.
      by exists i, a, b.
    + intros n' Hn'. unfold wiring in Hn'. apply elem_of_app in Hn' as [Hn'|Hn'].
      * apply elem_of_inWrites in Hn' as (j & c' & m & Hj & Hm & Heq).
        simplify_eq.
        pose proof (NoDup_lookup _ _ _ _ (wf_NoDup_in s0 Hwf) Hj Ha) as ->.
        congruence.
      * apply elem_of_outWrites in Hn' as (j & c' & m & _ & _ & _ & Heq). done.
  - apply (wf_tail s Hwf'). rewrite last_lookup.
    apply lookup_ge_None in Eb. apply lookup_lt_Some in Ha as Hlt.
    replace (pred (length (inCtxs_ (self s)))) with i by lia. done.
Qed.

Lemma wired_out (R W : Ty) (s0 : State) :
  wf s0 ->
  let s := finalize R W s0 in
  forall i a, outCtxs_ (self s) !! i = Some a ->
              nextOut (heap s) a
              = Some (match i with 0 => None | S j => outCtxs_ (self s) !! j end).
Proof.
  intros Hwf s i a Ha.
  pose proof (wf_finalize R W s0 Hwf) as Hwf'. fold s in Hwf'.
  destruct (finalize_spec R W s0) as (Hh & _ & _ & _ & Ho & _). fold s in Hh, Ho.
  destruct i as [|j].
  - apply (wf_head s Hwf'). by rewrite head_lookup.
  - assert (is_Some (outCtxs_ (self s) !! j)) as [b Hb].
    { apply lookup_lt_is_Some. apply lookup_lt_Some in Ha. lia. }
    rewrite Hb. rewrite Ho in Ha, Hb. rewrite Hh, writes_nextOut.
    destruct (wf_lookup_out s0 (S j) a Hwf Ha) as [c ->]. simpl. f_equal.
    apply slotOut_determined.
    + unfold wiring. apply elem_of_app. right. apply elem_of_outWrites.
      exists (S j), a, b. split_and!; [lia|done| |done].
      by replace (S j - 1) with j by lia.
    + intros n' Hn'. unfold wiring in Hn'. apply elem_of_app in Hn' as [Hn'|Hn'].
      * apply elem_of_inWrites in Hn' as (k & c' & m & _ & _ & Heq). done.
      * apply elem_of_outWrites in Hn' as (k & c' & m & Hk & Hj & Hm & Heq).
        simplify_eq.
        pose proof (NoDup_lookup _ _ _ _ (wf_NoDup_out s0 Hwf) Hj Ha) as ->.
        replace (S j - 1) with j in Hm by lia. congruence.
Qed.

Lemma walk_null (next : Context -> option Ptr) (h : list Context) (fuel : nat) :
  walk next h fuel None = [].
Proof. by destruct fuel. Qed.

Lemma walk_chain (next : Context -> option Ptr) (h : list Context)
    (l : list Ptr) (k : nat) :
  (forall i a, l !! i = Some a -> next <$> h !! a = Some (l !! (i + 1))) ->
  forall n i, n = length l - i -> walk next h (n + k) (l !! i) = drop i l.
Proof.
  intros Hl. induction n as [|n IH]; intros i Hn.
  - rewrite lookup_ge_None_2 by lia. rewrite walk_null.
    by rewrite drop_ge by lia.
  - assert (is_Some (l !! i)) as [a Ha] by (apply lookup_lt_is_Some; lia).
    rewrite Ha. simpl. pose proof (Hl i a Ha) as Hnext.
    destruct (h !! a) as [c|]; [|done]. simpl in Hnext.
    injection Hnext as ->. rewrite (IH (i + 1)) by lia.
    rewrite Nat.add_1_r. by rewrite <- drop_S.
Qed.

(** X14: in a pipeline just finalized, following [nextIn] from the first
    inbound context visits exactly the inbound contexts, in order, and then
    reaches null; following [nextOut] from the last outbound context visits
    exactly the outbound contexts, last to first, and then reaches null.
    Neither chain has a cycle or skips a context. *)
Theorem chains_walk (R W : Ty) (this : Ptr) (ops : list Op) (k : nat) :
  let s := finalize R W (run R W this ops new) in
  walk nextIn_ (heap s) (length (inCtxs_ (self s)) + k) (head (inCtxs_ (self s)))
  = inCtxs_ (self s) /\
  walk nextOut_ (heap s) (length (outCtxs_ (self s)) + k) (last (outCtxs_ (self s)))
  = reverse (outCtxs_ (self s)).
Proof.
  intros s.
  pose proof (wf_run R W this ops new wf_new) as Hwf.
  pose proof (wired_in R W _ Hwf) as Hin.
  pose proof (wired_out R W _ Hwf) as Hout.
  fold s in Hin, Hout. cbv zeta in Hin, Hout. fold s in Hin, Hout.
  split.
  - rewrite head_lookup.
    rewrite (walk_chain nextIn_ (heap s) (inCtxs_ (self s)) k); [done| |lia].
    intros i a Ha. apply (Hin i a Ha).
  - rewrite <- head_reverse, head_lookup.
    rewrite <- (length_reverse (outCtxs_ (self s))).
    rewrite (walk_chain nextOut_ (heap s) (reverse (outCtxs_ (self s))) k);
      [done| |lia].
    intros i a Ha. apply reverse_lookup_Some in Ha as [Ha Hlt].
    pose proof (Hout _ a Ha) as Hn. unfold nextOut in Hn. rewrite Hn. f_equal.
    destruct (decide (i + 1 < length (outCtxs_ (self s)))) as [Hi|Hi].
    + rewrite reverse_lookup by lia.
      replace (length (outCtxs_ (self s)) - S i)
        with (S (length (outCtxs_ (self s)) - S (i + 1))) by lia.
      done.
    + replace (length (outCtxs_ (self s)) - S i) with 0 by lia.
      symmetry. apply lookup_ge_None. rewrite length_reverse. lia.
Qed.

(** ** Every context serves a direction *)

(** X15: in a reachable pipeline every context of [ctxs_] is in [inCtxs_]
    or in [outCtxs_], the two derived vectors hold contexts of [ctxs_]
    only, and the contexts in both are the ones of direction BOTH. *)
Theorem every_context_serves (R W : Ty) (this : Ptr) (ops : list Op) (ctx : Ptr) :
  let s := run R W this ops new in
  (ctx ∈ ctxs_ (self s) <-> ctx ∈ inCtxs_ (self s) \/ ctx ∈ outCtxs_ (self s)) /\
  (ctx ∈ inCtxs_ (self s) /\ ctx ∈ outCtxs_ (self s) <->
   ctx ∈ ctxs_ (self s) /\
   exists c, heap s !! ctx = Some c /\ dir (handlerType c) = BOTH).
Proof.
  intros s. pose proof (wf_run R W this ops new wf_new) as Hwf. fold s in Hwf.
  rewrite (wf_in s Hwf), (wf_out s Hwf), !list_elem_of_filter.
  unfold isInbound, isOutbound.
  split.
  - split; [|tauto]. intros Hin.
    destruct (lookup_lt_is_Some_2 _ _ (wf_valid s Hwf ctx Hin)) as [c ->].
    destruct (dir (handlerType c)); simpl; tauto.
  - split.
    + intros [[Hi Hin] [Ho _]]. split; [done|].
      destruct (heap s !! ctx) as [c|]; [|done]. exists c. split; [done|].
      by destruct (dir (handlerType c)).
    + intros [Hin (c & -> & ->)]. done.
Qed.

(** ** The RPC client's pipeline *)

(** X6: whatever the five handler classes are, [newPipeline] returns a
    pipeline whose [ctxs_] holds the five contexts in the order of the
    [addBack] calls, each retrievable under its class at its position, and
    on which finalize has called [attachPipeline] from the serializer's
    context back to the socket handler's.  If the socket handler is an
    inbound link over [IOBufQueue&] it is the inbound entry, and if the
    serializer is an outbound link over [Bonk] it is the outbound entry. *)
Theorem newPipeline_chain (this : Ptr)
    (socket eventBase decoder prepender serializer : Handler) :
  let s := RpcClient.newPipeline this socket eventBase decoder prepender serializer in
  ctxs_ (self s) = [0; 1; 2; 3; 4] /\
  (exists ws, Forall (fun e => is_warning e = true) ws /\
     trace s = ws ++ (attachPipeline <$> [4; 3; 2; 1; 0])) /\
  getHandler (htype socket) 0 s = Returns (haddr socket) s /\
  getHandler (htype eventBase) 1 s = Returns (haddr eventBase) s /\
  getHandler (htype decoder) 2 s = Returns (haddr decoder) s /\
  getHandler (htype prepender) 3 s = Returns (haddr prepender) s /\
  getHandler (htype serializer) 4 s = Returns (haddr serializer) s /\
  (inboundDir (dir (htype socket)) = true ->
   inboundLinkType (htype socket) = RpcClient.R ->
   front_ (self s) = Some 0) /\
  (outboundDir (dir (htype serializer)) = true ->
   outboundLinkType (htype serializer) = RpcClient.W ->
   back_ (self s) = Some 4).
Proof.
  intros s.
  set (hs := [socket; eventBase; decoder; prepender; serializer]).
  set (s0 := for_each hs (addBack this) new).
  assert (s = finalize RpcClient.R RpcClient.W s0) as Hs.
  { subst s s0 hs. unfold RpcClient.newPipeline, for_each. cbn [foldl].
    reflexivity. }
  assert (wf s0) as Hwf.
  { subst s0 hs.
    apply (wf_add this serializer false), (wf_add this prepender false),
      (wf_add this decoder false), (wf_add this eventBase false),
      (wf_add this socket false), wf_new. }
  destruct (addBack_chain_state this hs) as (Hc0 & Hh0 & _ & _ & Ht0).
  fold s0 in Hc0, Hh0, Ht0.
  destruct (finalize_spec RpcClient.R RpcClient.W s0)
    as (_ & (ws & Hws & Ht) & Hc & _ & _ & Hf & Hb & _).
  rewrite <- Hs in Ht, Hc, Hf, Hb.
  assert (forall i h, hs !! i = Some h ->
            getHandler (htype h) (Z.of_nat i) s = Returns (haddr h) s) as Hget.
  { intros i h Hi. rewrite Hs. apply getHandler_finalize.
    apply (getHandler_newContext this h i i).
    - rewrite Hc0. apply lookup_seq_lt. by apply lookup_lt_Some in Hi.
    - by rewrite Hh0, list_lookup_fmap, Hi. }
  split_and!.
  - by rewrite Hc, Hc0.
  - exists ws. split; [done|]. by rewrite Ht, Ht0, Hc0.
  - by apply (Hget 0).
  - by apply (Hget 1).
  - by apply (Hget 2).
  - by apply (Hget 3).
  - by apply (Hget 4).
  - intros Hd HT. rewrite Hf, (wf_in s0 Hwf), Hc0, Hh0.
    change (seq 0 (length hs)) with (0 :: seq 1 4).
    rewrite filter_cons_True.
    + unfold dynamic_cast_InboundLink. simpl. rewrite Hd, HT. by rewrite bool_decide_true.
    + unfold isInbound. simpl. by rewrite Hd.
  - intros Hd HT. rewrite Hb, (wf_out s0 Hwf), Hc0, Hh0.
    change (seq 0 (length hs)) with ([0; 1; 2; 3] ++ [4]).
    rewrite filter_app, (filter_singleton_True _ _ []).
    + rewrite last_snoc. unfold dynamic_cast_OutboundLink. simpl.
      rewrite Hd, HT. by rewrite bool_decide_true.
    + unfold isOutbound. simpl. by rewrite Hd.
Qed.

Lemma newPipeline_chain_witness :
  front_ (self (RpcClient.newPipeline 1000
                  (mkHandler Scenario.Bb 101) (mkHandler Scenario.Co 102)
                  (mkHandler Scenario.Ai 103) (mkHandler Scenario.Co 104)
                  (mkHandler Scenario.Bb 105))) = Some 0 /\
  back_ (self (RpcClient.newPipeline 1000
                 (mkHandler Scenario.Bb 101) (mkHandler Scenario.Co 102)
                 (mkHandler Scenario.Ai 103) (mkHandler Scenario.Co 104)
                 (mkHandler Scenario.Bb 105))) = Some 4.
Proof.
  pose proof (newPipeline_chain 1000
                (mkHandler Scenario.Bb 101) (mkHandler Scenario.Co 102)
                (mkHandler Scenario.Ai 103) (mkHandler Scenario.Co 104)
                (mkHandler Scenario.Bb 105)) as H.
  cbv zeta in H. destruct H as (_ & _ & _ & _ & _ & _ & _ & HF & HB).
  split.
  - apply HF; reflexivity.
  - apply HB; reflexivity.
Defined.
